(** * LeetCode tracker: merge, local store and view pipeline

    A shallow embedding of the page component [LeetCodeTracker] and of its
    helper [inferDifficulty]: the merge of a freshly fetched problem feed with
    the locally persisted progress, the versioned snapshot kept in
    [localStorage], and the filter / sort / paginate derivation of the table.

    Conventions of the embedding.
    - A JavaScript string is a [string]; [toLowerCase] acts on the ASCII
      letters, the part of the Unicode case tables the two share, and [<] on
      two strings is the order of [String.compare], which on ASCII text is
      the order by code unit of the language.
    - The numbers the component stores ([rating], [page], [pageSize], the
      snapshot version) are integers, [Z]; the rating of a remote record and
      the bounds typed into the rating filter are finite fractions, [Q].
      Non-finite numbers are outside the model.
    - An optional property ([Rating?], [ProblemIndex?], the members of a
      [Partial<Problem>]) is an [option]; [None] is [undefined].
    - [localStorage] is a finite map from keys to items, the [Map] built by
      the merge is a [gmap], and the effects of the component (storage,
      network, React state, exceptions) are threaded by a small state and
      exception monad. *)

From Stdlib Require Import ZArith QArith Qround Lqa String Ascii List Lia.
From Stdlib Require Import DecimalString DecimalZ DecimalPos Sorted Permutation.
From stdpp Require Import base gmap strings list.

Local Open Scope string_scope.
Local Open Scope list_scope.
Set Warnings "-register-all".

(** ** Configuration *)

Definition STORAGE_KEY : string := "leetcode-tracker-v2".
Definition DATA_VERSION : Z := 1.

(** ** Types *)

Record Problem : Type := {
  id : string;
  title : string;
  slug : string;
  rating : Z;
  contest : string;
  difficulty : string;
  solved : bool;
  starred : bool;
  notes : string;
  tc : string;
  sc : string;
}.

Record RawItem : Type := {
  ID : Z;
  Title : string;
  TitleSlug : string;
  Rating : option Q;
  ContestID_en : option string;
  ProblemIndex : option string;
}.

#[global] Instance Problem_eq_dec : EqDecision Problem.
Proof. solve_decision. Defined.

(** ** JavaScript primitives used by the component *)

(** [String(n)] for an integer [n]: its decimal numeral, with a leading minus
    sign for a negative one.  (JavaScript switches to exponent notation from
    [1e21] on; problem numbers are far below.) *)
Definition ToString (n : Z) : string :=
  NilZero.string_of_int (Z.to_int n).

(** [Math.round(x)]: the nearest integer, a tie going up. *)
Definition Math_round (x : Q) : Z := Qfloor (x + (1 # 2))%Q.

(** [x || d] at the three types the merge uses it: an absent or falsy left
    operand ([undefined], [false], [0], the empty string) yields [d]. *)
Definition or_bool (x : option bool) (d : bool) : bool :=
  match x with
  | Some true => true
  | _ => d
  end.

Definition or_string (x : option string) (d : string) : string :=
  match x with
  | Some (String c s) => String c s
  | _ => d
  end.

Definition or_number (x : option Q) (d : Q) : Q :=
  match x with
  | Some q => if Qeq_bool q 0 then d else q
  | None => d
  end.

(** [xs.includes(x)] on an array of strings. *)
Definition Array_includes (xs : list string) (x : string) : bool :=
  existsb (String.eqb x) xs.

(** [s.includes(q)]: [q] occurs in [s] as a contiguous substring. *)
Fixpoint includes (s q : string) : bool :=
  String.prefix q s ||
  match s with
  | EmptyString => false
  | String _ s' => includes s' q
  end.

Definition lower_ascii (c : ascii) : ascii :=
  let n := nat_of_ascii c in
  if (65 <=? n)%nat && (n <=? 90)%nat then ascii_of_nat (n + 32) else c.

(** [s.toLowerCase()]. *)
Fixpoint toLowerCase (s : string) : string :=
  match s with
  | EmptyString => EmptyString
  | String c s' => String (lower_ascii c) (toLowerCase s')
  end.

(** [xs.slice(s, e)]: a negative index counts from the end, and both indices
    are clamped to the array. *)
Definition slice_index (len i : Z) : Z :=
  if (i <? 0)%Z then Z.max (len + i) 0 else Z.min i len.

Definition Array_slice {A : Type} (xs : list A) (s e : Z) : list A :=
  let len := Z.of_nat (length xs) in
  let k := slice_index len s in
  let f := slice_index len e in
  take (Z.to_nat (f - k)) (drop (Z.to_nat k) xs).

(** [xs.sort(cmp)].  The language requires the sort to be stable; for a
    comparator that is a consistent ordering its result is the one of the
    insertion sort below, whatever the algorithm of the engine (lemma
    [Array_sort_unique]).  For a comparator that is not consistent on the
    array the language leaves the order to the engine, and nothing is proved
    of the result but that it is a permutation. *)
Fixpoint sort_insert {A : Type} (cmp : A → A → Z) (x : A) (xs : list A) : list A :=
  match xs with
  | [] => [x]
  | y :: ys =>
      if (cmp x y <=? 0)%Z then x :: y :: ys else y :: sort_insert cmp x ys
  end.

Definition Array_sort {A : Type} (cmp : A → A → Z) (xs : list A) : list A :=
  foldr (sort_insert cmp) [] xs.

(** ** Difficulty inference *)

Definition inferDifficulty (idx : option string) : string :=
  if decide (idx = Some "Q1") then "Easy"
  else if Array_includes ["Q3"; "Q4"; "Q5"] (or_string idx "") then "Hard"
  else "Medium".

(** ** Dataset merge *)

(** [new Map(saved.map((p) => [p.id, p]))]: entries are set in order, so a
    later record replaces an earlier one with the same identifier. *)
Definition savedMap (saved : list Problem) : gmap string Problem :=
  foldl (λ m p, <[id p := p]> m) ∅ saved.

(** The callback of [raw.map] in [fetchAndMerge]. *)
Definition merge_record (m : gmap string Problem) (r : RawItem) : Problem :=
  let old := m !! ToString (ID r) in
  {| id := ToString (ID r);
     title := Title r;
     slug := TitleSlug r;
     rating := Math_round (or_number (Rating r) 0);
     contest := or_string (ContestID_en r) "";
     difficulty := inferDifficulty (ProblemIndex r);
     solved := or_bool (solved <$> old) false;
     starred := or_bool (starred <$> old) false;
     notes := or_string (notes <$> old) "";
     tc := or_string (tc <$> old) "";
     sc := or_string (sc <$> old) "" |}.

Definition merge (saved : list Problem) (raw : list RawItem) : list Problem :=
  map (merge_record (savedMap saved)) raw.

(** ** JSON documents and the storage cell *)

Inductive json : Type :=
| JNull
| JBool (b : bool)
| JNum (n : Z)
| JStr (s : string)
| JArr (xs : list json)
| JObj (fields : list (string * json)).

(** What [getItem] and [JSON.parse] can tell of a stored text: the empty
    string, a text that is not JSON, or a text that is the JSON document [j].
    [JSON.stringify] writes the text of a document, and [JSON.parse] reads it
    back. *)
Inductive item : Type :=
| Empty_text
| Malformed
| Document (j : json).

Definition JSON_stringify (j : json) : item := Document j.

(** [j.name] on a parsed value other than [null]; [None] is [undefined]. *)
Definition prop (name : string) (j : json) : option json :=
  match j with
  | JObj fields => snd <$> List.find (λ kv, String.eqb (fst kv) name) fields
  | _ => None
  end.

(** Truthiness of a value that may be [undefined]. *)
Definition truthy (v : option json) : bool :=
  match v with
  | None | Some JNull | Some (JBool false) | Some (JNum 0) | Some (JStr "") => false
  | Some _ => true
  end.

Definition truthy_item (c : item) : bool :=
  match c with
  | Empty_text => false
  | _ => true
  end.

Definition truthy_string (s : string) : bool :=
  match s with
  | EmptyString => false
  | String _ _ => true
  end.

(** The object [JSON.stringify] sees for a record, properties in the order
    the merge creates them (a spread keeps that order). *)
Definition Problem_toJSON (p : Problem) : json :=
  JObj [("id", JStr (id p)); ("title", JStr (title p)); ("slug", JStr (slug p));
        ("rating", JNum (rating p)); ("contest", JStr (contest p));
        ("difficulty", JStr (difficulty p)); ("solved", JBool (solved p));
        ("starred", JBool (starred p)); ("notes", JStr (notes p));
        ("tc", JStr (tc p)); ("sc", JStr (sc p))].

Definition str_prop (name : string) (j : json) : option string :=
  match prop name j with
  | Some (JStr s) => Some s
  | _ => None
  end.

Definition num_prop (name : string) (j : json) : option Z :=
  match prop name j with
  | Some (JNum n) => Some n
  | _ => None
  end.

Definition bool_prop (name : string) (j : json) : option bool :=
  match prop name j with
  | Some (JBool b) => Some b
  | _ => None
  end.

(** A parsed value read at the type [Problem] the component declares for it:
    defined when every property is there with its declared type. *)
Definition Problem_ofJSON (j : json) : option Problem :=
  i ← str_prop "id" j; t ← str_prop "title" j; s ← str_prop "slug" j;
  r ← num_prop "rating" j; c ← str_prop "contest" j;
  d ← str_prop "difficulty" j; so ← bool_prop "solved" j;
  st ← bool_prop "starred" j; n ← str_prop "notes" j;
  x ← str_prop "tc" j; y ← str_prop "sc" j;
  Some {| id := i; title := t; slug := s; rating := r; contest := c;
          difficulty := d; solved := so; starred := st; notes := n;
          tc := x; sc := y |}.

Fixpoint Problems_ofJSON_list (xs : list json) : option (list Problem) :=
  match xs with
  | [] => Some []
  | x :: xs' =>
      p ← Problem_ofJSON x; ps ← Problems_ofJSON_list xs'; Some (p :: ps)
  end.

(** A parsed value read at the type [Problem[]]. *)
Definition Problems_ofJSON (v : option json) : option (list Problem) :=
  match v with
  | Some (JArr xs) => Problems_ofJSON_list xs
  | _ => None
  end.

(** The snapshot object [{ version: DATA_VERSION, data }]. *)
Definition snapshot (data : list Problem) : json :=
  JObj [("version", JNum DATA_VERSION); ("data", JArr (map Problem_toJSON data))].

(** ** Filters, sort specification and React state *)

Module Filters.
Record t : Type := {
  min : Q;
  max : Q;
  query : string;
  solved : bool;
  starred : bool;
}.
End Filters.

(** [keyof Problem]. *)
Inductive keyof_Problem : Type :=
| Kid | Ktitle | Kslug | Krating | Kcontest | Kdifficulty
| Ksolved | Kstarred | Knotes | Ktc | Ksc.

#[global] Instance keyof_Problem_eq_dec : EqDecision keyof_Problem.
Proof. solve_decision. Defined.

Inductive Dir : Type := asc | desc.

#[global] Instance Dir_eq_dec : EqDecision Dir.
Proof. solve_decision. Defined.

Record SortSpec : Type := {
  key : option keyof_Problem;
  dir : Dir;
}.

(** [Partial<Problem>]: the argument of [update]. *)
Module Patch.
Record t : Type := {
  id : option string;
  title : option string;
  slug : option string;
  rating : option Z;
  contest : option string;
  difficulty : option string;
  solved : option bool;
  starred : option bool;
  notes : option string;
  tc : option string;
  sc : option string;
}.
End Patch.

Record State : Type := {
  allProblems : list Problem;
  visible : list Problem;
  loading : bool;
  filters : Filters.t;
  sort : SortSpec;
  page : Z;
  pageSize : Z;
}.

Definition initial_filters : Filters.t :=
  {| Filters.min := 0; Filters.max := 3500; Filters.query := "";
     Filters.solved := false; Filters.starred := false |}.

Definition initial_state : State :=
  {| allProblems := []; visible := []; loading := true;
     filters := initial_filters; sort := {| key := None; dir := asc |};
     page := 1; pageSize := 25 |}.

(** ** The view pipeline *)

(** The filter stage of the view effect. *)
Definition filterStage (f : Filters.t) (all : list Problem) : list Problem :=
  let list := all in
  let list :=
    List.filter
      (λ p, Qle_bool (Filters.min f) (inject_Z (rating p)) &&
            Qle_bool (inject_Z (rating p)) (Filters.max f)) list in
  let list := if Filters.solved f then List.filter (λ p, solved p) list else list in
  let list := if Filters.starred f then List.filter (λ p, starred p) list else list in
  if truthy_string (Filters.query f) then
    let q := toLowerCase (Filters.query f) in
    List.filter (λ p, includes (toLowerCase (title p)) q || includes (id p) q) list
  else list.

(** The values the comparator compares: the values a property of a record can
    hold, and an object or function that a lookup in [map] finds on
    [Object.prototype], given by the string its conversion to a primitive
    yields. *)
Inductive value : Type :=
| VNum (n : Z)
| VStr (s : string)
| VBool (b : bool)
| VInherited (text : string).

(** [a[key]]. *)
Definition field (k : keyof_Problem) (a : Problem) : value :=
  match k with
  | Kid => VStr (id a)
  | Ktitle => VStr (title a)
  | Kslug => VStr (slug a)
  | Krating => VNum (rating a)
  | Kcontest => VStr (contest a)
  | Kdifficulty => VStr (difficulty a)
  | Ksolved => VBool (solved a)
  | Kstarred => VBool (starred a)
  | Knotes => VStr (notes a)
  | Ktc => VStr (tc a)
  | Ksc => VStr (sc a)
  end.

(** The own properties of [map = { Easy: 1, Medium: 2, Hard: 3 }], and the
    [0] of [?? 0] for a label that is none of them. *)
Definition difficulty_rank (label : string) : Z :=
  if String.eqb label "Easy" then 1
  else if String.eqb label "Medium" then 2
  else if String.eqb label "Hard" then 3
  else 0.

(** [map] is an object literal, so a lookup that finds no own property goes on
    to [Object.prototype].  The table lists the properties found there, each
    with the string the conversion of its value to a primitive yields: the
    source text of a built-in function, and the tag of the prototype object
    for [__proto__].  (Engines differ in the white space of the source text;
    the order of two of these strings is decided within the names.) *)
Definition Object_prototype : list (string * string) :=
  [("constructor", "function Object() { [native code] }");
   ("__defineGetter__", "function __defineGetter__() { [native code] }");
   ("__defineSetter__", "function __defineSetter__() { [native code] }");
   ("hasOwnProperty", "function hasOwnProperty() { [native code] }");
   ("__lookupGetter__", "function __lookupGetter__() { [native code] }");
   ("__lookupSetter__", "function __lookupSetter__() { [native code] }");
   ("isPrototypeOf", "function isPrototypeOf() { [native code] }");
   ("propertyIsEnumerable", "function propertyIsEnumerable() { [native code] }");
   ("toString", "function toString() { [native code] }");
   ("valueOf", "function valueOf() { [native code] }");
   ("__proto__", "[object Object]");
   ("toLocaleString", "function toLocaleString() { [native code] }")].

Definition inherited (label : string) : option string :=
  snd <$> List.find (λ kv, String.eqb (fst kv) label) Object_prototype.

(** [map[label] ?? 0]: the number of an own property, the value inherited
    under the label when there is one (it is not nullish), and [0] when the
    lookup finds nothing. *)
Definition map_get (label : string) : value :=
  match inherited label with
  | Some text => VInherited text
  | None => VNum (difficulty_rank label)
  end.

(** [String(v)]. *)
Definition String_of_value (v : value) : string :=
  match v with
  | VNum n => ToString n
  | VStr s => s
  | VBool true => "true"
  | VBool false => "false"
  | VInherited text => text
  end.

(** [A < B]: numbers by magnitude, strings by code unit, [false] below
    [true].  Two inherited values are converted to their strings and compared
    as strings; an inherited value against a number is converted to a number,
    which is [NaN], and the comparison is false.  Other operands of different
    types do not meet in the comparator. *)
Definition value_lt (A B : value) : bool :=
  match A, B with
  | VNum x, VNum y => (x <? y)%Z
  | VStr x, VStr y => String.ltb x y
  | VBool x, VBool y => negb x && y
  | VInherited x, VInherited y => String.ltb x y
  | _, _ => false
  end.

(** The comparator handed to [list.sort] when [sort.key] is [k]. *)
Definition comparator (k : keyof_Problem) (d : Dir) (a b : Problem) : Z :=
  let A := field k a in
  let B := field k b in
  let A := if decide (k = Kdifficulty) then map_get (String_of_value A) else A in
  let B := if decide (k = Kdifficulty) then map_get (String_of_value B) else B in
  if value_lt A B then (if decide (d = asc) then -1 else 1)
  else if value_lt B A then (if decide (d = asc) then 1 else -1)
  else 0.

Definition sortStage (s : SortSpec) (xs : list Problem) : list Problem :=
  match key s with
  | Some k => Array_sort (comparator k (dir s)) xs
  | None => xs
  end.

(** The effect that depends on [filters], [allProblems] and [sort]: it derives
    the visible list and returns to the first page. *)
Definition viewEffect (s : State) : State :=
  {| allProblems := allProblems s;
     visible := sortStage (sort s) (filterStage (filters s) (allProblems s));
     loading := loading s;
     filters := filters s;
     sort := sort s;
     page := 1;
     pageSize := pageSize s |}.

(** [Math.ceil(visible.length / pageSize)]. *)
Definition pages (s : State) : Z :=
  Qceiling (inject_Z (Z.of_nat (length (visible s))) / inject_Z (pageSize s)).

Definition slice (s : State) : list Problem :=
  let start := ((page s - 1) * pageSize s)%Z in
  Array_slice (visible s) start (start + pageSize s)%Z.

(** ** State setters *)

Definition setAllProblems (l : list Problem) (s : State) : State :=
  viewEffect
    {| allProblems := l; visible := visible s; loading := loading s;
       filters := filters s; sort := sort s; page := page s;
       pageSize := pageSize s |}.

Definition setFilters (f : Filters.t) (s : State) : State :=
  viewEffect
    {| allProblems := allProblems s; visible := visible s; loading := loading s;
       filters := f; sort := sort s; page := page s; pageSize := pageSize s |}.

Definition setSort (srt : SortSpec) (s : State) : State :=
  viewEffect
    {| allProblems := allProblems s; visible := visible s; loading := loading s;
       filters := filters s; sort := srt; page := page s;
       pageSize := pageSize s |}.

Definition setLoading (b : bool) (s : State) : State :=
  {| allProblems := allProblems s; visible := visible s; loading := b;
     filters := filters s; sort := sort s; page := page s;
     pageSize := pageSize s |}.

Definition setPage (n : Z) (s : State) : State :=
  {| allProblems := allProblems s; visible := visible s; loading := loading s;
     filters := filters s; sort := sort s; page := n; pageSize := pageSize s |}.

Definition setPageSize (n : Z) (s : State) : State :=
  {| allProblems := allProblems s; visible := visible s; loading := loading s;
     filters := filters s; sort := sort s; page := page s; pageSize := n |}.

(** ** The world and the monad of effects *)

(** The storage of the browser, the responses the network will give to the
    successive requests ([None] for a request that fails), and the React
    state of the component. *)
Record World : Type := {
  localStorage : gmap string item;
  network : list (option (list RawItem));
  ui : State;
}.

(** A computation returns, throws, or leaves the typed model: [IllTyped] is
    the outcome when a value read from the storage is used at a declared type
    it does not have. *)
Inductive result (A : Type) : Type :=
| Ok (a : A) (w : World)
| Throw (w : World)
| IllTyped.

Arguments Ok {A} a w.
Arguments Throw {A} w.
Arguments IllTyped {A}.

Definition M (A : Type) : Type := World → result A.

#[global] Instance M_ret : MRet M := λ A a w, Ok a w.

#[global] Instance M_bind : MBind M := λ A B f m w,
  match m w with
  | Ok a w' => f a w'
  | Throw w' => Throw w'
  | IllTyped => IllTyped
  end.

Definition throw {A : Type} : M A := λ w, Throw w.

(** [try { body } catch { handler }]. *)
Definition try_catch {A : Type} (body handler : M A) : M A := λ w,
  match body w with
  | Throw w' => handler w'
  | r => r
  end.

(** The use of a stored value at its declared type. *)
Definition cast {A : Type} (o : option A) : M A := λ w,
  match o with
  | Some a => Ok a w
  | None => IllTyped
  end.

Definition get_state : M State := λ w, Ok (ui w) w.

Definition set_state (f : State → State) : M unit := λ w,
  Ok tt {| localStorage := localStorage w; network := network w; ui := f (ui w) |}.

Definition getItem (k : string) : M (option item) := λ w,
  Ok (localStorage w !! k) w.

Definition setItem (k : string) (v : item) : M unit := λ w,
  Ok tt {| localStorage := <[k := v]> (localStorage w); network := network w;
           ui := ui w |}.

(** [JSON.parse(text)]: a syntax error for a text that is not JSON. *)
Definition JSON_parse (c : item) : M json :=
  match c with
  | Document j => mret j
  | _ => throw
  end.

(** [parsed.name]: a type error on [null]. *)
Definition member (name : string) (j : json) : M (option json) :=
  match j with
  | JNull => throw
  | _ => mret (prop name j)
  end.

(** [await fetch(DATA_URL)] followed by [await res.json()]. *)
Definition fetch_json : M (list RawItem) := λ w,
  match network w with
  | Some raw :: rest =>
      Ok raw {| localStorage := localStorage w; network := rest; ui := ui w |}
  | None :: rest =>
      Throw {| localStorage := localStorage w; network := rest; ui := ui w |}
  | [] => Throw w
  end.

(** ** Local store and initialisation *)

Definition persist (data : list Problem) : M unit :=
  setItem STORAGE_KEY (JSON_stringify (snapshot data)).

(** [cache || "{}"]. *)
Definition or_item (cache : option item) : item :=
  match cache with
  | Some c => if truthy_item c then c else Document (JObj [])
  | None => Document (JObj [])
  end.

(** [parsed.version === DATA_VERSION]. *)
Definition is_DATA_VERSION (v : option json) : bool :=
  match v with
  | Some (JNum n) => (n =? DATA_VERSION)%Z
  | _ => false
  end.

Definition fetchAndMerge : M unit :=
  raw ← fetch_json;
  cache ← getItem STORAGE_KEY;
  parsed ← JSON_parse (or_item cache);
  let data := prop "data" parsed in
  saved ← (if truthy data then cast (Problems_ofJSON data) else mret []);
  let merged := merge saved raw in
  persist merged;;
  set_state (setAllProblems merged);;
  set_state (setLoading false).

(** The body of the [try] block of [loadData] up to its early [return]:
    [true] when the cache was used. *)
Definition cache_hit : M bool :=
  cache ← getItem STORAGE_KEY;
  match cache with
  | Some c =>
      if truthy_item c then
        parsed ← JSON_parse c;
        version ← member "version" parsed;
        if is_DATA_VERSION version then
          data ← cast (Problems_ofJSON (prop "data" parsed));
          set_state (setAllProblems data);;
          set_state (setLoading false);;
          mret true
        else mret false
      else mret false
  | None => mret false
  end.

Definition loadData : M unit :=
  try_catch
    (hit ← cache_hit; if hit : bool then mret tt else fetchAndMerge)
    fetchAndMerge.

(** ** Mutations *)

(** [{ ...p, ...patch }]. *)
Definition spread (p : Problem) (patch : Patch.t) : Problem :=
  {| id := default (id p) (Patch.id patch);
     title := default (title p) (Patch.title patch);
     slug := default (slug p) (Patch.slug patch);
     rating := default (rating p) (Patch.rating patch);
     contest := default (contest p) (Patch.contest patch);
     difficulty := default (difficulty p) (Patch.difficulty patch);
     solved := default (solved p) (Patch.solved patch);
     starred := default (starred p) (Patch.starred patch);
     notes := default (notes p) (Patch.notes patch);
     tc := default (tc p) (Patch.tc patch);
     sc := default (sc p) (Patch.sc patch) |}.

(** The list [next] that [update] computes. *)
Definition update_list (all : list Problem) (i : string) (patch : Patch.t) : list Problem :=
  map (λ p, if decide (id p = i) then spread p patch else p) all.

Definition update (i : string) (patch : Patch.t) : M unit :=
  s ← get_state;
  let next := update_list (allProblems s) i patch in
  set_state (setAllProblems next);;
  persist next.

(** ** Events of the rendered page *)

Inductive event : Type :=
| ChangeMin (v : Q)
| ChangeMax (v : Q)
| ChangeQuery (q : string)
| TickSolved (b : bool)
| TickStarred (b : bool)
| SelectPageSize (n : Z)
| ToggleSort (k : keyof_Problem)
| ToggleSolved (row : nat)
| ToggleStar (row : nat)
| EditTc (row : nat) (v : string)
| EditSc (row : nat) (v : string)
| EditNotes (row : nat) (v : string)
| First
| Prev
| Next
| Last.

(** [toggle(key)] of the table header. *)
Definition toggle (k : keyof_Problem) (p : SortSpec) : SortSpec :=
  {| key := Some k;
     dir := if bool_decide (key p = Some k) && bool_decide (dir p = asc) then desc else asc |}.

(** The patch a row of the table sends to [update]. *)
Definition row_patch (e : event) (p : Problem) : option Patch.t :=
  match e with
  | ToggleSolved _ => Some {| Patch.id := None; Patch.title := None; Patch.slug := None;
       Patch.rating := None; Patch.contest := None; Patch.difficulty := None;
       Patch.solved := Some (negb (solved p)); Patch.starred := None;
       Patch.notes := None; Patch.tc := None; Patch.sc := None |}
  | ToggleStar _ => Some {| Patch.id := None; Patch.title := None; Patch.slug := None;
       Patch.rating := None; Patch.contest := None; Patch.difficulty := None;
       Patch.solved := None; Patch.starred := Some (negb (starred p));
       Patch.notes := None; Patch.tc := None; Patch.sc := None |}
  | EditTc _ v => Some {| Patch.id := None; Patch.title := None; Patch.slug := None;
       Patch.rating := None; Patch.contest := None; Patch.difficulty := None;
       Patch.solved := None; Patch.starred := None;
       Patch.notes := None; Patch.tc := Some v; Patch.sc := None |}
  | EditSc _ v => Some {| Patch.id := None; Patch.title := None; Patch.slug := None;
       Patch.rating := None; Patch.contest := None; Patch.difficulty := None;
       Patch.solved := None; Patch.starred := None;
       Patch.notes := None; Patch.tc := None; Patch.sc := Some v |}
  | EditNotes _ v => Some {| Patch.id := None; Patch.title := None; Patch.slug := None;
       Patch.rating := None; Patch.contest := None; Patch.difficulty := None;
       Patch.solved := None; Patch.starred := None;
       Patch.notes := Some v; Patch.tc := None; Patch.sc := None |}
  | _ => None
  end.

Definition row_of (e : event) : option nat :=
  match e with
  | ToggleSolved r | ToggleStar r | EditTc r _ | EditSc r _ | EditNotes r _ => Some r
  | _ => None
  end.

Definition with_filters (f : Filters.t → Filters.t) : M unit :=
  s ← get_state; set_state (setFilters (f (filters s))).

(** An event of a row of the table: the row is looked up in the slice on
    display and its patch is sent to [update]. *)
Definition edit_row (e : event) : M unit :=
  s ← get_state;
  match row_of e ≫= (λ r, slice s !! r) with
  | Some p =>
      match row_patch e p with
      | Some patch => update (id p) patch
      | None => mret tt
      end
  | None => mret tt
  end.

(** The handler the page runs for an event. *)
Definition handle (e : event) : M unit :=
  match e with
  | ChangeMin v => with_filters (λ f,
      {| Filters.min := v; Filters.max := Filters.max f; Filters.query := Filters.query f;
         Filters.solved := Filters.solved f; Filters.starred := Filters.starred f |})
  | ChangeMax v => with_filters (λ f,
      {| Filters.min := Filters.min f; Filters.max := v; Filters.query := Filters.query f;
         Filters.solved := Filters.solved f; Filters.starred := Filters.starred f |})
  | ChangeQuery q => with_filters (λ f,
      {| Filters.min := Filters.min f; Filters.max := Filters.max f; Filters.query := q;
         Filters.solved := Filters.solved f; Filters.starred := Filters.starred f |})
  | TickSolved b => with_filters (λ f,
      {| Filters.min := Filters.min f; Filters.max := Filters.max f;
         Filters.query := Filters.query f;
         Filters.solved := b; Filters.starred := Filters.starred f |})
  | TickStarred b => with_filters (λ f,
      {| Filters.min := Filters.min f; Filters.max := Filters.max f;
         Filters.query := Filters.query f;
         Filters.solved := Filters.solved f; Filters.starred := b |})
  | SelectPageSize n => set_state (setPageSize n)
  | ToggleSort k => s ← get_state; set_state (setSort (toggle k (sort s)))
  | First => set_state (setPage 1)
  | Prev => s ← get_state; set_state (setPage (page s - 1))
  | Next => s ← get_state; set_state (setPage (page s + 1))
  | Last => s ← get_state; set_state (setPage (pages s))
  | _ => edit_row e
  end.

(** An event can occur when the page is rendered (not loading) and the
    control that sends it is there and not disabled. *)
Definition enabled (e : event) (s : State) : bool :=
  negb (loading s) &&
  match e with
  | SelectPageSize n => (n =? 25)%Z || (n =? 50)%Z || (n =? 100)%Z
  | ToggleSort k =>
      bool_decide (k = Kid) || bool_decide (k = Kdifficulty) || bool_decide (k = Krating)
  | First | Prev => (1 <? pages s)%Z && negb (page s =? 1)%Z
  | Next | Last => (1 <? pages s)%Z && negb (page s =? pages s)%Z
  | ChangeMin _ | ChangeMax _ | ChangeQuery _ | TickSolved _ | TickStarred _ => true
  | _ =>
      match row_of e ≫= (λ r, slice s !! r) with
      | Some _ => true
      | None => false
      end
  end.

(** The world a computation leaves behind. *)
Definition settle {A : Type} (r : result A) : option World :=
  match r with
  | Ok _ w | Throw w => Some w
  | IllTyped => None
  end.

Definition mount (ls : gmap string item) (net : list (option (list RawItem))) : option World :=
  settle (loadData {| localStorage := ls; network := net; ui := viewEffect initial_state |}).

(** The worlds the page can be in when its events are among the [allowed]
    ones: after the initial load, and after any allowed event that can
    occur. *)
Inductive reachable_by (allowed : event → Prop) : World → Prop :=
| reach_mount ls net w :
    mount ls net = Some w → reachable_by allowed w
| reach_event w e w' :
    reachable_by allowed w → allowed e → enabled e (ui w) = true →
    settle (handle e w) = Some w' → reachable_by allowed w'.

Definition reachable : World → Prop := reachable_by (λ _, True).

(** The events that are run one after the other, each of them enabled when
    its turn comes. *)
Fixpoint run_events (es : list event) (w : World) : option World :=
  match es with
  | [] => Some w
  | e :: es' =>
      if enabled e (ui w) then settle (handle e w) ≫= run_events es' else None
  end.

(** ** Vocabulary of the pager *)

(** The page on display exists: with a filtered list that is not empty, the
    page index lies between 1 and the page count. *)
Definition page_in_bounds (s : State) : Prop :=
  visible s ≠ [] → (1 ≤ page s ≤ pages s)%Z.

Definition is_resize (e : event) : Prop := ∃ n, e = SelectPageSize n.

(** A feed of [n] problems, numbered from 1. *)
Definition feed_of_size (n : nat) : list RawItem :=
  (λ i, {| ID := Z.of_nat i; Title := "Problem"; TitleSlug := "problem";
           Rating := Some (1500 # 1)%Q; ContestID_en := None;
           ProblemIndex := None |}) <$> seq 1 n.

(** ** Vocabulary of the merge contract *)

(** The identity, display, rating, contest and difficulty fields of [p] are
    those the fresh record [r] gives. *)
Definition fresh_fields (r : RawItem) (p : Problem) : Prop :=
  id p = ToString (ID r) ∧ title p = Title r ∧ slug p = TitleSlug r ∧
  rating p = Math_round (or_number (Rating r) 0) ∧
  contest p = or_string (ContestID_en r) "" ∧
  difficulty p = inferDifficulty (ProblemIndex r).

Definition same_user_fields (old p : Problem) : Prop :=
  solved p = solved old ∧ starred p = starred old ∧ notes p = notes old ∧
  tc p = tc old ∧ sc p = sc old.

Definition default_user_fields (p : Problem) : Prop :=
  solved p = false ∧ starred p = false ∧ notes p = "" ∧ tc p = "" ∧ sc p = "".

(** [merged] is the merge of the previous snapshot [saved] with the fresh list
    [raw]: one record per fresh record, in the same position; its user-owned
    fields copied from a previous record with the same identifier when there is
    one and defaulted otherwise; no record for an identifier that only the
    previous snapshot has. *)
Definition merge_contract (saved : list Problem) (raw : list RawItem)
    (merged : list Problem) : Prop :=
  length merged = length raw ∧
  (∀ (i : nat) (r : RawItem), raw !! i = Some r →
     ∃ p, merged !! i = Some p ∧ fresh_fields r p ∧
          ((∃ old, old ∈ saved ∧ id old = id p ∧ same_user_fields old p) ∨
           ((∀ old, old ∈ saved → id old ≠ id p) ∧ default_user_fields p))) ∧
  (∀ q, q ∈ saved → (∀ r, r ∈ raw → ToString (ID r) ≠ id q) →
     ∀ p, p ∈ merged → id p ≠ id q).

(** The previous local snapshot that [fetchAndMerge] finds in the world:
    nothing under the key, or a stored document whose [data] is the list. *)
Inductive previous_snapshot (w : World) : list Problem → Prop :=
| previous_absent :
    localStorage w !! STORAGE_KEY = None → previous_snapshot w []
| previous_stored (j : json) (saved : list Problem) :
    localStorage w !! STORAGE_KEY = Some (Document j) →
    prop "data" j = Some (JArr (map Problem_toJSON saved)) →
    previous_snapshot w saved.

(** The world [fetchAndMerge] leaves when it publishes the list [merged]. *)
Definition published (w : World) (rest : list (option (list RawItem)))
    (merged : list Problem) : World :=
  {| localStorage := <[STORAGE_KEY := Document (snapshot merged)]> (localStorage w);
     network := rest;
     ui := setLoading false (setAllProblems merged (ui w)) |}.

(** [q] is what [{ ...p, ...patch }] may differ from [p] in: a field the patch
    names takes the value the patch gives, any other field keeps its own. *)
Definition patched_field {A : Type} (named : option A) (old new : A) : Prop :=
  match named with
  | Some v => new = v
  | None => new = old
  end.

Definition patched_by (patch : Patch.t) (p q : Problem) : Prop :=
  patched_field (Patch.id patch) (id p) (id q) ∧
  patched_field (Patch.title patch) (title p) (title q) ∧
  patched_field (Patch.slug patch) (slug p) (slug q) ∧
  patched_field (Patch.rating patch) (rating p) (rating q) ∧
  patched_field (Patch.contest patch) (contest p) (contest q) ∧
  patched_field (Patch.difficulty patch) (difficulty p) (difficulty q) ∧
  patched_field (Patch.solved patch) (solved p) (solved q) ∧
  patched_field (Patch.starred patch) (starred p) (starred q) ∧
  patched_field (Patch.notes patch) (notes p) (notes q) ∧
  patched_field (Patch.tc patch) (tc p) (tc q) ∧
  patched_field (Patch.sc patch) (sc p) (sc q).

(** ** Sample data *)

Definition two_sum : RawItem :=
  {| ID := 1; Title := "Two Sum"; TitleSlug := "two-sum";
     Rating := Some (30185 # 10)%Q; ContestID_en := Some "Weekly Contest 1";
     ProblemIndex := Some "Q4" |}.

Definition two_sum_saved : Problem :=
  {| id := "1"; title := "Two Sum (old)"; slug := "two-sum-old"; rating := 7;
     contest := ""; difficulty := "Easy"; solved := true; starred := false;
     notes := "x"; tc := "O(n)"; sc := "" |}.

Definition retired_saved : Problem :=
  {| id := "99"; title := "Retired"; slug := "retired"; rating := 1200;
     contest := ""; difficulty := "Medium"; solved := true; starred := true;
     notes := "gone upstream"; tc := ""; sc := "" |}.

(** A feed record whose rating is below zero and whose index is missing. *)
Definition below_zero : RawItem :=
  {| ID := 2; Title := "Below"; TitleSlug := "below";
     Rating := Some (-3 # 1)%Q; ContestID_en := None; ProblemIndex := None |}.

Definition world_of (ls : gmap string item)
    (net : list (option (list RawItem))) (s : State) : World :=
  {| localStorage := ls; network := net; ui := s |}.

Definition sample_world : World :=
  world_of {[ STORAGE_KEY := Document (snapshot [two_sum_saved; retired_saved]) ]}
           [Some [two_sum; below_zero]]
           (viewEffect initial_state).

Definition solved_patch (b : bool) : Patch.t :=
  {| Patch.id := None; Patch.title := None; Patch.slug := None;
     Patch.rating := None; Patch.contest := None; Patch.difficulty := None;
     Patch.solved := Some b; Patch.starred := None; Patch.notes := None;
     Patch.tc := None; Patch.sc := None |}.

(** The world after the sample feed was merged into the sample snapshot. *)
Definition ready_world : World :=
  published sample_world [] (merge [two_sum_saved; retired_saved] [two_sum; below_zero]).

(** ** Vocabulary of the load path *)

(** The cache cannot be used by [loadData]: there is nothing under the key,
    the text is empty, the text does not parse, it parses to [null], or it
    parses to a value whose [version] is not [DATA_VERSION]. *)
Inductive cache_unusable (w : World) : Prop :=
| unusable_absent :
    localStorage w !! STORAGE_KEY = None → cache_unusable w
| unusable_empty :
    localStorage w !! STORAGE_KEY = Some Empty_text → cache_unusable w
| unusable_malformed :
    localStorage w !! STORAGE_KEY = Some Malformed → cache_unusable w
| unusable_null :
    localStorage w !! STORAGE_KEY = Some (Document JNull) → cache_unusable w
| unusable_version (j : json) :
    localStorage w !! STORAGE_KEY = Some (Document j) →
    is_DATA_VERSION (prop "version" j) = false → cache_unusable w.

(** A snapshot written under another version of the data. *)
Definition stale_snapshot (version : Z) (data : list Problem) : json :=
  JObj [("version", JNum version); ("data", JArr (map Problem_toJSON data))].

Definition stale_world : World :=
  world_of {[ STORAGE_KEY := Document (stale_snapshot 2 [two_sum_saved]) ]}
           [Some [two_sum]] (viewEffect initial_state).

Definition absent_world : World :=
  world_of ∅ [Some [two_sum]] (viewEffect initial_state).

Definition malformed_world : World :=
  world_of {[ STORAGE_KEY := Malformed ]} [Some [two_sum]] (viewEffect initial_state).

(** ** Vocabulary of the filter stage *)

(** [q] occurs in [s]. *)
Definition occurs_in (q s : string) : Prop :=
  ∃ a b : string, s = (a ++ q ++ b)%string.

Definition in_range (f : Filters.t) (p : Problem) : bool :=
  Qle_bool (Filters.min f) (inject_Z (rating p)) &&
  Qle_bool (inject_Z (rating p)) (Filters.max f).

(** The text predicate of the filter stage: the query in lower case is looked
    for in the title in lower case, and in the identifier as it is. *)
Definition text_match (query : string) (p : Problem) : bool :=
  includes (toLowerCase (title p)) (toLowerCase query) ||
  includes (id p) (toLowerCase query).

(** The conjunction of the active predicates. *)
Definition passes (f : Filters.t) (p : Problem) : bool :=
  in_range f p &&
  (negb (Filters.solved f) || solved p) &&
  (negb (Filters.starred f) || starred p) &&
  (negb (truthy_string (Filters.query f)) || text_match (Filters.query f) p).

(** The text predicate in the words of the specification: a match of the
    query against the title or the identifier that ignores case on both. *)
Definition text_match_ignoring_case (query : string) (p : Problem) : bool :=
  includes (toLowerCase (title p)) (toLowerCase query) ||
  includes (toLowerCase (id p)) (toLowerCase query).

Definition passes_ignoring_case (f : Filters.t) (p : Problem) : bool :=
  in_range f p &&
  (negb (Filters.solved f) || solved p) &&
  (negb (Filters.starred f) || starred p) &&
  (negb (truthy_string (Filters.query f)) || text_match_ignoring_case (Filters.query f) p).

Definition with_query (q : string) : Filters.t :=
  {| Filters.min := 0; Filters.max := 3500; Filters.query := q;
     Filters.solved := false; Filters.starred := false |}.

(** A record whose identifier has a capital letter, as a snapshot edited by
    hand may hold. *)
Definition capital_id : Problem :=
  {| id := "A1"; title := "Two Sum"; slug := "two-sum"; rating := 1500;
     contest := ""; difficulty := "Easy"; solved := false; starred := false;
     notes := ""; tc := ""; sc := "" |}.

(** ** Vocabulary of the sort stage *)

(** A label that names no property of [Object.prototype], as "Easy", "Medium"
    and "Hard" and most other strings, and a record whose label is such when
    the sort key is the difficulty. *)
Definition plain_label (label : string) : Prop := inherited label = None.

Definition plain (k : keyof_Problem) (a : Problem) : Prop :=
  k = Kdifficulty → plain_label (difficulty a).

(** The sort key of a record in the words of the specification: the rank of
    the label in the ordinal mapping (0 off the mapping) for the difficulty,
    the field itself for any other key.  It is the value the comparator
    compares for a plain record. *)
Definition sort_key (k : keyof_Problem) (a : Problem) : value :=
  if decide (k = Kdifficulty) then VNum (difficulty_rank (difficulty a))
  else field k a.

(** The comparator in the words of the specification: the one that compares
    the sort keys above. *)
Definition ordinal_comparator (k : keyof_Problem) (d : Dir) (a b : Problem) : Z :=
  if value_lt (sort_key k a) (sort_key k b) then (if decide (d = asc) then -1 else 1)
  else if value_lt (sort_key k b) (sort_key k a) then (if decide (d = asc) then 1 else -1)
  else 0.

(** The natural ordering of two values of one type: numbers by magnitude,
    strings lexically, [false] before [true]. *)
Definition value_compare (A B : value) : comparison :=
  match A, B with
  | VNum x, VNum y => (x ?= y)%Z
  | VStr x, VStr y => String.compare x y
  | VBool x, VBool y => Bool.compare x y
  | _, _ => Eq
  end.

(** Two values of one type, as the values read from one property are. *)
Inductive same_kind : value → value → Prop :=
| both_numbers (x y : Z) : same_kind (VNum x) (VNum y)
| both_strings (x y : string) : same_kind (VStr x) (VStr y)
| both_booleans (x y : bool) : same_kind (VBool x) (VBool y).

Definition sign (c : comparison) : Z :=
  match c with
  | Lt => -1
  | Eq => 0
  | Gt => 1
  end.





Definition labelled (i label : string) : Problem :=
  {| id := i; title := "t"; slug := "s"; rating := 1500; contest := "";
     difficulty := label; solved := false; starred := false; notes := "";
     tc := ""; sc := "" |}.

(** ** Vocabulary of the invariants of the page *)

(** The list on display is the derivation of the full list under the filters
    and the sort specification in force. *)
Definition view_consistent (s : State) : Prop :=
  visible s = sortStage (sort s) (filterStage (filters s) (allProblems s)).

(** The storage holds, under [STORAGE_KEY], a snapshot of the current version
    whose data reads back as the full list in memory. *)
Definition in_sync (w : World) : Prop :=
  ∃ j, localStorage w !! STORAGE_KEY = Some (Document j) ∧
       is_DATA_VERSION (prop "version" j) = true ∧
       Problems_ofJSON (prop "data" j) = Some (allProblems (ui w)).

(** The world after the load over an empty storage with the feed [two_sum]. *)
Definition fresh_world : World :=
  published absent_world [] (merge [] [two_sum]).

(** The world after the load over a storage whose text does not parse. *)
Definition stuck_world : World :=
  world_of {[ STORAGE_KEY := Malformed ]} [] (viewEffect initial_state).

(** ** Header statistics *)

(** The counts of the [stats] memo: [total], [solved] and [starred].  (Its
    [percent] is a formatted floating-point number and is not modelled.) *)
Definition stats_total (s : State) : nat := length (allProblems s).

Definition stats_solved (s : State) : nat :=
  length (List.filter (λ p, solved p) (allProblems s)).

Definition stats_starred (s : State) : nat :=
  length (List.filter (λ p, starred p) (allProblems s)).

(** * Properties *)

(** ** JavaScript primitives *)

Lemma or_string_Some (s : string) : or_string (Some s) "" = s.
Proof. by destruct s. Qed.

Lemma or_bool_Some (b : bool) : or_bool (Some b) false = b.
Proof. by destruct b. Qed.

Lemma Array_includes_true (xs : list string) (x : string) :
  Array_includes xs x = true ↔ x ∈ xs.
Proof.
  unfold Array_includes. rewrite existsb_exists. split.
  - intros (y & Hy & Heq). apply String.eqb_eq in Heq. subst.
    by apply list_elem_of_In.
  - intros Hx. exists x. split; [by apply list_elem_of_In | apply String.eqb_refl].
Qed.

(** ** Difficulty inference *)

(** C2.  [inferDifficulty] is defined on every optional index: it answers
    "Easy" on "Q1", "Hard" on "Q3", "Q4" and "Q5", and "Medium" on every
    other input, among them [undefined] and "Q2". *)
Theorem inferDifficulty_spec :
  inferDifficulty (Some "Q1") = "Easy" ∧
  (∀ x : string, x ∈ ["Q3"; "Q4"; "Q5"] → inferDifficulty (Some x) = "Hard") ∧
  (∀ idx : option string,
     idx ≠ Some "Q1" → idx ≠ Some "Q3" → idx ≠ Some "Q4" → idx ≠ Some "Q5" →
     inferDifficulty idx = "Medium") ∧
  inferDifficulty None = "Medium" ∧
  inferDifficulty (Some "Q2") = "Medium".
Proof.
  split; [reflexivity |]. split; [| split; [| split; reflexivity]].
  - intros x Hx. unfold inferDifficulty.
    destruct (decide (Some x = Some "Q1")) as [Heq | _].
    + injection Heq as ->. repeat (apply elem_of_cons in Hx as [Hx | Hx]; [discriminate |]).
      by apply elem_of_nil in Hx.
    + rewrite or_string_Some.
      by apply Array_includes_true in Hx as ->.
  - intros idx H1 H3 H4 H5. unfold inferDifficulty.
    destruct (decide (idx = Some "Q1")) as [? | _]; [done |].
    destruct (Array_includes _ _) eqn:Hin; [| done].
    apply Array_includes_true in Hin. destruct idx as [s |].
    + rewrite or_string_Some in Hin.
      repeat (apply elem_of_cons in Hin as [-> | Hin]; [done |]).
      by apply elem_of_nil in Hin.
    + simpl in Hin.
      repeat (apply elem_of_cons in Hin as [? | Hin]; [discriminate |]).
      by apply elem_of_nil in Hin.
Qed.

Lemma inferDifficulty_spec_witness :
  inferDifficulty (Some "Q3") = "Hard" ∧ inferDifficulty (Some "Q9") = "Medium".
Proof.
  split.
  - apply (proj1 (proj2 inferDifficulty_spec)). apply elem_of_cons. by left.
  - apply (proj1 (proj2 (proj2 inferDifficulty_spec))); discriminate.
Defined.

(** ** The identifier-keyed lookup of the merge *)

Lemma savedMap_snoc (l : list Problem) (p : Problem) :
  savedMap (l ++ [p]) = <[id p := p]> (savedMap l).
Proof. unfold savedMap. by rewrite foldl_app. Qed.

Lemma savedMap_None (saved : list Problem) (k : string) :
  savedMap saved !! k = None ↔ ∀ old, old ∈ saved → id old ≠ k.
Proof.
  induction saved as [| p l IH] using rev_ind.
  - split; [intros _ old Hold; by apply elem_of_nil in Hold | done].
  - rewrite savedMap_snoc. destruct (decide (id p = k)) as [Heq | Hne].
    + rewrite Heq, lookup_insert_eq. split; [done |].
      intros H. exfalso. apply (H p); [| done].
      apply elem_of_app. right. by apply list_elem_of_singleton.
    + rewrite lookup_insert_ne by done. rewrite IH. split.
      * intros H old Hold. apply elem_of_app in Hold as [Hold | Hold]; [by apply H |].
        apply list_elem_of_singleton in Hold. by subst.
      * intros H old Hold. apply H, elem_of_app. by left.
Qed.

(** A hit is the last record of the snapshot with that identifier. *)
Lemma savedMap_Some (saved : list Problem) (k : string) (old : Problem) :
  savedMap saved !! k = Some old ↔
  ∃ l1 l2, saved = l1 ++ old :: l2 ∧ id old = k ∧ ∀ q, q ∈ l2 → id q ≠ k.
Proof.
  induction saved as [| p l IH] using rev_ind.
  - split; [done |]. intros (l1 & l2 & Heq & _). by destruct l1.
  - rewrite savedMap_snoc. destruct (decide (id p = k)) as [Heq | Hne].
    + rewrite Heq, lookup_insert_eq. split.
      * intros [= <-]. exists l, []. split; [done |]. split; [done |].
        intros q Hq. by apply elem_of_nil in Hq.
      * intros (l1 & l2 & Hl & Hid & Hlast).
        destruct l2 as [| q l2 _] using rev_ind.
        -- apply app_inj_tail in Hl as [_ ->]. done.
        -- rewrite app_comm_cons, app_assoc in Hl.
           apply app_inj_tail in Hl as [_ ->]. exfalso.
           apply (Hlast q); [| done]. apply elem_of_app. right.
           by apply list_elem_of_singleton.
    + rewrite lookup_insert_ne by done. rewrite IH. split.
      * intros (l1 & l2 & -> & Hid & Hlast). exists l1, (l2 ++ [p]).
        split; [by rewrite <- app_assoc |]. split; [done |].
        intros q Hq. apply elem_of_app in Hq as [Hq | Hq]; [by apply Hlast |].
        apply list_elem_of_singleton in Hq. by subst.
      * intros (l1 & l2 & Hl & Hid & Hlast).
        destruct l2 as [| q l2 _] using rev_ind.
        -- apply app_inj_tail in Hl as [_ ->]. done.
        -- rewrite app_comm_cons, app_assoc in Hl.
           apply app_inj_tail in Hl as [-> ->]. exists l1, l2.
           split; [done |]. split; [done |].
           intros q' Hq'. apply Hlast, elem_of_app. by left.
Qed.

(** ** Records read back from their JSON objects *)

Lemma Problem_ofJSON_toJSON (p : Problem) :
  Problem_ofJSON (Problem_toJSON p) = Some p.
Proof. by destruct p. Qed.

Lemma Problems_ofJSON_list_toJSON (l : list Problem) :
  Problems_ofJSON_list (map Problem_toJSON l) = Some l.
Proof.
  induction l as [| p l IH]; [done |].
  cbn [map Problems_ofJSON_list]. rewrite Problem_ofJSON_toJSON. cbn.
  by rewrite IH.
Qed.

(** ** Dataset merge *)

Lemma merge_record_fresh (m : gmap string Problem) (r : RawItem) :
  fresh_fields r (merge_record m r).
Proof. by repeat split. Qed.

Lemma merge_record_user_fields (saved : list Problem) (r : RawItem) :
  let p := merge_record (savedMap saved) r in
  (∃ l1 old l2, saved = l1 ++ old :: l2 ∧ id old = id p ∧
     (∀ q, q ∈ l2 → id q ≠ id p) ∧ same_user_fields old p) ∨
  ((∀ old, old ∈ saved → id old ≠ id p) ∧ default_user_fields p).
Proof.
  intros p. subst p. unfold merge_record. cbn [id].
  destruct (savedMap saved !! ToString (ID r)) as [old |] eqn:Hold.
  - left. apply savedMap_Some in Hold as (l1 & l2 & Hl & Hid & Hlast).
    exists l1, old, l2. repeat split; try done; cbn.
    + apply or_bool_Some.
    + apply or_bool_Some.
    + apply or_string_Some.
    + apply or_string_Some.
    + apply or_string_Some.
  - right. split; [by apply savedMap_None | by repeat split].
Qed.

Lemma merge_satisfies_contract (saved : list Problem) (raw : list RawItem) :
  merge_contract saved raw (merge saved raw).
Proof.
  unfold merge. split; [apply length_map |]. split.
  - intros i r Hr. exists (merge_record (savedMap saved) r).
    split; [by rewrite list_lookup_fmap, Hr |].
    split; [apply merge_record_fresh |].
    destruct (merge_record_user_fields saved r)
      as [(l1 & old & l2 & -> & Hid & _ & Hsame) | Hdef]; [left | by right].
    exists old. split; [| done]. apply elem_of_app. right. apply list_elem_of_here.
  - intros q _ Hgone p Hp.
    apply list_elem_of_fmap in Hp as (r & -> & Hr). cbn. by apply Hgone.
Qed.

Lemma fetchAndMerge_run (w : World) (saved : list Problem) (raw : list RawItem)
    (rest : list (option (list RawItem))) :
  previous_snapshot w saved → network w = Some raw :: rest →
  fetchAndMerge w = Ok tt (published w rest (merge saved raw)).
Proof.
  intros Hprev Hnet. unfold fetchAndMerge, mbind, M_bind, fetch_json.
  rewrite Hnet. unfold getItem. cbn [localStorage].
  destruct Hprev as [Habsent | j saved Hdoc Hdata].
  - by rewrite Habsent.
  - rewrite Hdoc. cbn. rewrite Hdata. cbn.
    by rewrite Problems_ofJSON_list_toJSON.
Qed.

(** C1.  With the previous snapshot [saved] in the storage (or none, [saved]
    empty) and the fetch answering [raw], [fetchAndMerge] publishes and
    persists a list with one record per fresh record: the identifier, title,
    slug, rating, contest and difficulty come from the fresh record; solved,
    starred, notes, tc and sc are copied from a previous record with the same
    identifier (the last one, should the snapshot repeat it) or are false and
    empty when there is none; an identifier found only in the previous
    snapshot has no record. *)
Theorem fetchAndMerge_spec (w : World) (saved : list Problem)
    (raw : list RawItem) (rest : list (option (list RawItem))) :
  previous_snapshot w saved → network w = Some raw :: rest →
  ∃ w', fetchAndMerge w = Ok tt w' ∧
        allProblems (ui w') = merge saved raw ∧
        localStorage w' !! STORAGE_KEY = Some (Document (snapshot (merge saved raw))) ∧
        merge_contract saved raw (allProblems (ui w')).
Proof.
  intros Hprev Hnet. eexists. split; [by apply fetchAndMerge_run |].
  cbn. split; [done |]. split; [apply lookup_insert_eq |].
  apply merge_satisfies_contract.
Qed.

Lemma fetchAndMerge_spec_witness :
  previous_snapshot sample_world [two_sum_saved; retired_saved] ∧
  network sample_world = [Some [two_sum; below_zero]] ∧
  ∃ w', fetchAndMerge sample_world = Ok tt w' ∧
        allProblems (ui w') = merge [two_sum_saved; retired_saved] [two_sum; below_zero] ∧
        localStorage w' !! STORAGE_KEY =
          Some (Document (snapshot (merge [two_sum_saved; retired_saved] [two_sum; below_zero]))) ∧
        merge_contract [two_sum_saved; retired_saved] [two_sum; below_zero]
          (allProblems (ui w')).
Proof.
  assert (Hprev : previous_snapshot sample_world [two_sum_saved; retired_saved]).
  { eapply previous_stored; reflexivity. }
  split; [exact Hprev |]. split; [reflexivity |].
  exact (fetchAndMerge_spec sample_world _ _ [] Hprev eq_refl).
Defined.

(** The merge of the sample snapshot with the sample feed, evaluated: the
    record of problem 1 keeps solved and notes and takes everything else from
    the feed, and the record that only the snapshot has is gone. *)
Example merge_sample :
  merge [two_sum_saved; retired_saved] [two_sum] =
  [ {| id := "1"; title := "Two Sum"; slug := "two-sum"; rating := 3019;
       contest := "Weekly Contest 1"; difficulty := "Hard"; solved := true;
       starred := false; notes := "x"; tc := "O(n)"; sc := "" |} ].
Proof. vm_compute. reflexivity. Qed.

(** ** Rating of a merged record *)

Lemma Math_round_Qeq (x y : Q) : (x == y)%Q → Math_round x = Math_round y.
Proof. intros H. unfold Math_round. apply Qfloor_comp. by rewrite H. Qed.

Lemma Math_round_nearest (x : Q) :
  (inject_Z (Math_round x) - (1 # 2) <= x)%Q ∧
  (x < inject_Z (Math_round x) + (1 # 2))%Q.
Proof.
  unfold Math_round.
  pose proof (Qfloor_le (x + (1 # 2))) as Hle.
  pose proof (Qlt_floor (x + (1 # 2))) as Hlt.
  rewrite inject_Z_plus in Hlt. change (inject_Z 1) with 1%Q in Hlt.
  split; lra.
Qed.

Lemma Math_round_nonneg (x : Q) :
  (0 ≤ Math_round x)%Z ↔ (- (1 # 2) <= x)%Q.
Proof.
  unfold Math_round. split.
  - intros H. pose proof (Qfloor_le (x + (1 # 2))) as Hle.
    assert (0 <= inject_Z (Qfloor (x + (1 # 2))))%Q as H0.
    { change 0%Q with (inject_Z 0). by rewrite <- Zle_Qle. }
    lra.
  - intros H. change 0%Z with (Qfloor 0). apply Qfloor_resp_le. lra.
Qed.

Lemma Math_round_or_number (q : Q) :
  Math_round (or_number (Some q) 0) = Math_round q.
Proof.
  unfold or_number. destruct (Qeq_bool q 0) eqn:Hq; [| done].
  apply Qeq_bool_eq in Hq. apply Math_round_Qeq. by rewrite Hq.
Qed.

(** C9, as the code has it.  The rating of a merged record is an integer: 0
    when the remote rating is missing, and otherwise the remote rating rounded
    to the nearest integer, which is below zero exactly when the remote rating
    is below minus one half.  A record without rating or without index is kept,
    with rating 0 and difficulty "Medium": the merged list is as long as the
    feed. *)
Theorem merged_rating_spec (saved : list Problem) (raw : list RawItem)
    (i : nat) (r : RawItem) :
  raw !! i = Some r →
  ∃ p, merge saved raw !! i = Some p ∧
       length (merge saved raw) = length raw ∧
       (Rating r = None → rating p = 0%Z) ∧
       (∀ q, Rating r = Some q →
          rating p = Math_round q ∧
          (inject_Z (rating p) - (1 # 2) <= q)%Q ∧
          (q < inject_Z (rating p) + (1 # 2))%Q ∧
          ((0 ≤ rating p)%Z ↔ (- (1 # 2) <= q)%Q)) ∧
       (ProblemIndex r = None → difficulty p = "Medium").
Proof.
  intros Hr. exists (merge_record (savedMap saved) r).
  split; [unfold merge; by rewrite list_lookup_fmap, Hr |].
  split; [apply length_map |]. unfold merge_record. cbn [rating difficulty].
  split; [| split].
  - by intros ->.
  - intros q ->. rewrite Math_round_or_number.
    split; [done |]. split; [apply Math_round_nearest |].
    split; [apply Math_round_nearest | apply Math_round_nonneg].
  - by intros ->.
Qed.

Lemma merged_rating_spec_witness :
  [two_sum; below_zero] !! 0%nat = Some two_sum ∧
  ∃ p, merge [] [two_sum; below_zero] !! 0%nat = Some p ∧
       length (merge [] [two_sum; below_zero]) = length [two_sum; below_zero] ∧
       (Rating two_sum = None → rating p = 0%Z) ∧
       (∀ q, Rating two_sum = Some q →
          rating p = Math_round q ∧
          (inject_Z (rating p) - (1 # 2) <= q)%Q ∧
          (q < inject_Z (rating p) + (1 # 2))%Q ∧
          ((0 ≤ rating p)%Z ↔ (- (1 # 2) <= q)%Q)) ∧
       (ProblemIndex two_sum = None → difficulty p = "Medium").
Proof.
  split; [reflexivity |].
  exact (merged_rating_spec [] [two_sum; below_zero] 0 two_sum eq_refl).
Defined.

(** C9, as the specification states it, fails: the feed record [below_zero] has the
    rating -3, and so has its merged record. *)
Lemma merged_rating_below_zero :
  merge [] [below_zero] !! 0%nat = Some (merge_record ∅ below_zero) ∧
  rating (merge_record ∅ below_zero) = (-3)%Z ∧
  ¬ (0 ≤ rating (merge_record ∅ below_zero))%Z.
Proof. split; [reflexivity |]. split; [reflexivity |]. vm_compute. by intros H. Qed.

(** ** Identifiers *)

Lemma ToString_inj (a b : Z) : ToString a = ToString b → a = b.
Proof.
  unfold ToString. intros H. apply DecimalZ.to_int_inj.
  assert (Hnil : ∀ z, Z.to_int z ≠ Decimal.Pos Decimal.Nil ∧
                      Z.to_int z ≠ Decimal.Neg Decimal.Nil).
  { intros [| p | p]; split; cbn; try discriminate;
      intros [= Hp]; by apply DecimalPos.Unsigned.to_uint_nonnil in Hp. }
  apply (f_equal NilZero.int_of_string) in H.
  rewrite !NilZero.isi in H by apply Hnil. by injection H.
Qed.

Lemma merge_ids (saved : list Problem) (raw : list RawItem) :
  id <$> merge saved raw = ToString <$> (ID <$> raw).
Proof.
  unfold merge. rewrite <- !list_fmap_compose. by apply list_fmap_ext.
Qed.

Lemma update_list_ids (all : list Problem) (i : string) (patch : Patch.t) :
  Patch.id patch = None → id <$> update_list all i patch = id <$> all.
Proof.
  intros Hid. unfold update_list. rewrite <- list_fmap_compose.
  apply list_fmap_ext. intros _ p _. cbn.
  destruct (decide (id p = i)); [| done]. cbn. by rewrite Hid.
Qed.

Lemma update_run (i : string) (patch : Patch.t) (w : World) :
  update i patch w =
  Ok tt {| localStorage :=
             <[STORAGE_KEY := Document (snapshot (update_list (allProblems (ui w)) i patch))]>
               (localStorage w);
           network := network w;
           ui := setAllProblems (update_list (allProblems (ui w)) i patch) (ui w) |}.
Proof. reflexivity. Qed.

Lemma row_patch_id (e : event) (p : Problem) (patch : Patch.t) :
  row_patch e p = Some patch → Patch.id patch = None.
Proof. destruct e; cbn; intros [= <-]; reflexivity. Qed.

(** What an event does to the full list: nothing, or one [update] with a
    patch that does not name the identifier. *)
Lemma handle_allProblems (e : event) (w w' : World) :
  settle (handle e w) = Some w' →
  allProblems (ui w') = allProblems (ui w) ∨
  ∃ i patch, Patch.id patch = None ∧
             allProblems (ui w') = update_list (allProblems (ui w)) i patch.
Proof.
  assert (Hrow : settle (edit_row e w) = Some w' →
    allProblems (ui w') = allProblems (ui w) ∨
    ∃ i patch, Patch.id patch = None ∧
               allProblems (ui w') = update_list (allProblems (ui w)) i patch).
  { unfold edit_row, mbind at 1, M_bind, get_state.
    destruct (row_of e ≫= _) as [p |]; [| cbn; intros [= <-]; by left].
    destruct (row_patch e p) as [patch |] eqn:Hpatch; [| cbn; intros [= <-]; by left].
    rewrite update_run. cbn. intros [= <-]. right. exists (id p), patch.
    split; [by eapply row_patch_id | done]. }
  destruct e; try (by apply Hrow); cbn; intros [= <-]; by left.
Qed.

(** C8, as the code has it.  The merge keeps the identifiers of the feed as
    they are: the merged list has no repeated identifier exactly when the feed
    has no repeated [ID].  A list without repeated identifier stays so under
    [update] with a patch that does not name the identifier, and so under
    every event of the page. *)
Theorem identifiers_unique_spec :
  (∀ saved raw, NoDup (id <$> merge saved raw) ↔ NoDup (ID <$> raw)) ∧
  (∀ all i patch, Patch.id patch = None →
     NoDup (id <$> all) → NoDup (id <$> update_list all i patch)) ∧
  (∀ e w w', settle (handle e w) = Some w' →
     NoDup (id <$> allProblems (ui w)) → NoDup (id <$> allProblems (ui w'))).
Proof.
  split; [| split].
  - intros saved raw. rewrite merge_ids. apply (@NoDup_fmap _ _ ToString ToString_inj).
  - intros all i patch Hid Hnd. by rewrite update_list_ids.
  - intros e w w' Hstep Hnd.
    destruct (handle_allProblems e w w' Hstep) as [-> | (i & patch & Hid & ->)];
      [done | by rewrite update_list_ids].
Qed.

(** C8, as the specification states it, fails: a feed that lists problem 1 twice
    gives a merged list with the identifier "1" twice. *)
Lemma merged_identifier_repeated :
  id <$> merge [] [two_sum; two_sum] = ["1"; "1"] ∧
  ¬ NoDup (id <$> merge [] [two_sum; two_sum]).
Proof.
  split; [reflexivity |]. intros H. apply NoDup_cons in H as [H _].
  apply H. apply list_elem_of_here.
Qed.

(** ** Mutations *)

Lemma spread_patched (p : Problem) (patch : Patch.t) :
  patched_by patch p (spread p patch).
Proof.
  unfold patched_by, spread, patched_field. cbn.
  repeat split; match goal with |- context [match ?x with _ => _ end] => by destruct x end.
Qed.

(** C10.  [update(id, patch)] keeps the length and the order of the list;
    a record whose identifier is not [id] is unchanged; in a record whose
    identifier is [id] the fields the patch names take the values of the patch
    and every other field is unchanged.  The new list is published and
    persisted. *)
Theorem update_frame (w : World) (i : string) (patch : Patch.t)
    (k : nat) (p : Problem) :
  allProblems (ui w) !! k = Some p →
  ∃ w' q, update i patch w = Ok tt w' ∧
          length (allProblems (ui w')) = length (allProblems (ui w)) ∧
          localStorage w' !! STORAGE_KEY = Some (Document (snapshot (allProblems (ui w')))) ∧
          allProblems (ui w') !! k = Some q ∧
          (id p ≠ i → q = p) ∧
          (id p = i → patched_by patch p q).
Proof.
  intros Hp. rewrite update_run. eexists _, _. split; [reflexivity |].
  cbn [ui localStorage setAllProblems viewEffect allProblems].
  split; [apply length_map |]. split; [apply lookup_insert_eq |].
  unfold update_list. split; [by rewrite list_lookup_fmap, Hp |].
  destruct (decide (id p = i)); split; try done.
  intros _. apply spread_patched.
Qed.

Lemma identifiers_unique_spec_witness :
  NoDup (id <$> merge [two_sum_saved] [two_sum; below_zero]) ∧
  NoDup (id <$> update_list [two_sum_saved; retired_saved] "1" (solved_patch false)) ∧
  ∃ w', settle (handle (ToggleStar 0) ready_world) = Some w' ∧
        NoDup (id <$> allProblems (ui w')).
Proof.
  destruct identifiers_unique_spec as (Hmerge & Hupdate & Hevent).
  split; [| split].
  - apply Hmerge. apply (bool_decide_unpack _). vm_compute. reflexivity.
  - apply Hupdate; [reflexivity |]. apply (bool_decide_unpack _). vm_compute. reflexivity.
  - eexists. split; [reflexivity |].
    apply (Hevent (ToggleStar 0) ready_world); [reflexivity |].
    apply (bool_decide_unpack _). vm_compute. reflexivity.
Defined.

Lemma update_frame_witness :
  allProblems (ui ready_world) !! 0%nat =
    Some (merge_record (savedMap [two_sum_saved; retired_saved]) two_sum) ∧
  ∃ w' q, update "1" (solved_patch false) ready_world = Ok tt w' ∧
          length (allProblems (ui w')) = length (allProblems (ui ready_world)) ∧
          localStorage w' !! STORAGE_KEY = Some (Document (snapshot (allProblems (ui w')))) ∧
          allProblems (ui w') !! 0%nat = Some q ∧
          (id (merge_record (savedMap [two_sum_saved; retired_saved]) two_sum) ≠ "1" →
           q = merge_record (savedMap [two_sum_saved; retired_saved]) two_sum) ∧
          (id (merge_record (savedMap [two_sum_saved; retired_saved]) two_sum) = "1" →
           patched_by (solved_patch false)
             (merge_record (savedMap [two_sum_saved; retired_saved]) two_sum) q).
Proof.
  split; [reflexivity |].
  exact (update_frame ready_world "1" (solved_patch false) 0 _ eq_refl).
Defined.

(** ** Local store *)

Lemma loadData_hit (w : World) (j : json) (data : list Problem) :
  localStorage w !! STORAGE_KEY = Some (Document j) →
  is_DATA_VERSION (prop "version" j) = true →
  prop "data" j = Some (JArr (map Problem_toJSON data)) →
  loadData w =
  Ok tt (world_of (localStorage w) (network w)
           (setLoading false (setAllProblems data (ui w)))).
Proof.
  intros Hdoc Hver Hdata.
  unfold loadData, try_catch, cache_hit, mbind, M_bind, getItem.
  rewrite Hdoc. cbn [truthy_item JSON_parse mret M_ret].
  assert (Hmem : member "version" j = mret (prop "version" j)).
  { destruct j; try done. }
  rewrite Hmem. cbn [mret M_ret]. rewrite Hver, Hdata. cbn.
  by rewrite Problems_ofJSON_list_toJSON.
Qed.

(** C5.  [persist] stores the snapshot of the list under [STORAGE_KEY]; a
    later [loadData] over that storage, whatever the network and the state of
    the page, takes the cache path (the version stored is [DATA_VERSION]) and
    publishes a list equal to the persisted one, record by record, without a
    request to the network. *)
Theorem persist_loadData_roundtrip (data : list Problem) (w : World) :
  ∃ w1, persist data w = Ok tt w1 ∧
        ∀ (net : list (option (list RawItem))) (s : State),
          ∃ w2, loadData (world_of (localStorage w1) net s) = Ok tt w2 ∧
                allProblems (ui w2) = data ∧
                loading (ui w2) = false ∧
                network w2 = net ∧
                localStorage w2 = localStorage w1.
Proof.
  eexists. split; [reflexivity |]. intros net s.
  eexists. split.
  - eapply loadData_hit with (data := data); cbn [localStorage world_of].
    + apply lookup_insert_eq.
    + reflexivity.
    + reflexivity.
  - by repeat split.
Qed.

(** ** Initialisation without a usable cache *)

Lemma fetchAndMerge_not_Throw (w : World) (raw : list RawItem)
    (rest : list (option (list RawItem))) :
  network w = Some raw :: rest →
  localStorage w !! STORAGE_KEY ≠ Some Malformed →
  ∀ w', fetchAndMerge w ≠ Throw w'.
Proof.
  intros Hnet Hwell w'. unfold fetchAndMerge, mbind, M_bind, fetch_json, getItem.
  rewrite Hnet. cbn [localStorage].
  destruct (localStorage w !! STORAGE_KEY) as [[| | j] |]; cbn; try done.
  destruct (truthy (prop "data" j)); cbn; [| done].
  by destruct (Problems_ofJSON (prop "data" j)).
Qed.

Lemma loadData_fallback (w : World) (raw : list RawItem)
    (rest : list (option (list RawItem))) :
  network w = Some raw :: rest → cache_unusable w →
  loadData w = fetchAndMerge w.
Proof.
  intros Hnet Hcache.
  assert (Htry : localStorage w !! STORAGE_KEY ≠ Some Malformed →
                 try_catch fetchAndMerge fetchAndMerge w = fetchAndMerge w).
  { intros Hwell. unfold try_catch.
    pose proof (fetchAndMerge_not_Throw w raw rest Hnet Hwell) as Hno.
    destruct (fetchAndMerge w); [done | by destruct (Hno w0) | done]. }
  unfold loadData. unfold try_catch at 1.
  unfold cache_hit, mbind at 1, M_bind at 1, mbind at 1, M_bind at 1, getItem.
  destruct Hcache as [Hc | Hc | Hc | Hc | j Hc Hver]; rewrite Hc.
  - cbn [mret M_ret]. apply Htry. by rewrite Hc.
  - cbn [truthy_item mret M_ret]. apply Htry. by rewrite Hc.
  - reflexivity.
  - reflexivity.
  - cbn [truthy_item JSON_parse]. unfold mbind, M_bind. cbn [mret M_ret].
    destruct j; cbn [member mret M_ret throw]; try rewrite Hver;
      try reflexivity; apply Htry; by rewrite Hc.
Qed.

(** C6, as the code has it.  When the cache cannot be used (absent, empty,
    not parsable, [null], or of another version) [loadData] does not publish
    the cached list: it does what [fetchAndMerge] does.  [fetchAndMerge] reads
    the stored snapshot whatever its version, so with a snapshot of another
    version the list published is the merge of the feed with that snapshot,
    and with no snapshot it is the merge with the empty list. *)
Theorem loadData_without_usable_cache (w : World) (raw : list RawItem)
    (rest : list (option (list RawItem))) :
  network w = Some raw :: rest → cache_unusable w →
  loadData w = fetchAndMerge w ∧
  ∀ saved, previous_snapshot w saved →
           loadData w = Ok tt (published w rest (merge saved raw)).
Proof.
  intros Hnet Hcache. split; [by eapply loadData_fallback |].
  intros saved Hprev. erewrite loadData_fallback by done.
  by apply fetchAndMerge_run.
Qed.

Lemma loadData_without_usable_cache_witness :
  network stale_world = [Some [two_sum]] ∧ cache_unusable stale_world ∧
  loadData stale_world = fetchAndMerge stale_world ∧
  ∀ saved, previous_snapshot stale_world saved →
           loadData stale_world = Ok tt (published stale_world [] (merge saved [two_sum])).
Proof.
  assert (Hcache : cache_unusable stale_world).
  { eapply unusable_version; reflexivity. }
  split; [reflexivity |]. split; [exact Hcache |].
  exact (loadData_without_usable_cache stale_world [two_sum] [] eq_refl Hcache).
Defined.

(** C6, as the specification states it, fails: a snapshot of version 2 is not
    treated as an absent cache.  The list published over it carries the
    solved flag and the notes of the stored record, where the list published
    over an empty storage has the defaults. *)
Lemma stale_version_is_not_absence :
  cache_unusable stale_world ∧ cache_unusable absent_world ∧
  (λ w, (λ p, (solved p, notes p)) <$> allProblems (ui w)) <$> settle (loadData stale_world)
    = Some [(true, "x")] ∧
  (λ w, (λ p, (solved p, notes p)) <$> allProblems (ui w)) <$> settle (loadData absent_world)
    = Some [(false, "")] ∧
  (allProblems ∘ ui) <$> settle (loadData stale_world) ≠
  (allProblems ∘ ui) <$> settle (loadData absent_world).
Proof.
  split; [eapply unusable_version; reflexivity |].
  split; [by apply unusable_absent |].
  split; [reflexivity |]. split; [reflexivity |].
  vm_compute. discriminate.
Qed.

(** With a text that does not parse under the key, [fetchAndMerge] parses it
    again after the request and throws: nothing is published and the page
    stays in its loading state. *)
Lemma loadData_malformed_cache (w : World) (raw : list RawItem)
    (rest : list (option (list RawItem))) :
  network w = Some raw :: rest →
  localStorage w !! STORAGE_KEY = Some Malformed →
  loadData w = Throw (world_of (localStorage w) rest (ui w)).
Proof.
  intros Hnet Hc. erewrite loadData_fallback; [| done | by apply unusable_malformed].
  unfold fetchAndMerge, mbind, M_bind, fetch_json, getItem.
  rewrite Hnet. cbn [localStorage]. by rewrite Hc.
Qed.

Example loadData_malformed_sample :
  loadData malformed_world =
  Throw (world_of {[ STORAGE_KEY := Malformed ]} [] (viewEffect initial_state)) ∧
  loading (viewEffect initial_state) = true.
Proof. split; reflexivity. Qed.

(** ** Strings *)

Lemma append_String (c : ascii) (a b : string) :
  (String c a ++ b)%string = String c (a ++ b)%string.
Proof. reflexivity. Qed.

Lemma prefix_spec (q s : string) :
  String.prefix q s = true ↔ ∃ b : string, s = (q ++ b)%string.
Proof.
  revert s. induction q as [| c q IH]; intros s; cbn.
  - destruct s; (split; [intros _; eexists; reflexivity | done]).
  - destruct s as [| d s]; cbn.
    + split; [done | intros [b Hb]; by rewrite append_String in Hb].
    + destruct (ascii_dec c d) as [-> | Hne].
      * rewrite IH. split; intros [b Hb]; exists b;
          rewrite append_String in *; congruence.
      * split; [done |]. intros [b Hb]. rewrite append_String in Hb. congruence.
Qed.

Lemma includes_spec (s q : string) : includes s q = true ↔ occurs_in q s.
Proof.
  unfold occurs_in. induction s as [| c s IH].
  - cbn [includes]. rewrite orb_false_r, prefix_spec. split.
    + intros [b Hb]. by exists EmptyString, b.
    + intros ([| ? a] & b & Hab); [by exists b |].
      by rewrite append_String in Hab.
  - cbn [includes]. rewrite orb_true_iff, prefix_spec, IH. split.
    + intros [[b Hb] | (a & b & Hab)].
      * by exists EmptyString, b.
      * exists (String c a), b. rewrite append_String. by rewrite Hab.
    + intros ([| d a] & b & Hab).
      * left. by exists b.
      * right. exists a, b. rewrite append_String in Hab. congruence.
Qed.

Lemma toLowerCase_string_of_uint (d : Decimal.uint) :
  toLowerCase (NilEmpty.string_of_uint d) = NilEmpty.string_of_uint d.
Proof. induction d; cbn [NilEmpty.string_of_uint toLowerCase]; by rewrite ?IHd. Qed.

(** The numeral of an integer has no capital letter. *)
Lemma toLowerCase_ToString (n : Z) : toLowerCase (ToString n) = ToString n.
Proof.
  unfold ToString, NilZero.string_of_int, NilZero.string_of_uint.
  destruct (Z.to_int n) as [[] | []]; try reflexivity;
    cbn [toLowerCase]; f_equal;
    apply (toLowerCase_string_of_uint (_ _)) || (f_equal; apply toLowerCase_string_of_uint).
Qed.

(** ** The filter stage *)

Lemma filter_filter_andb {A : Type} (f g : A → bool) (l : list A) :
  List.filter g (List.filter f l) = List.filter (λ x, f x && g x) l.
Proof.
  induction l as [| x l IH]; [done |]. cbn.
  destruct (f x); cbn; [destruct (g x) |]; by rewrite IH.
Qed.

Lemma filter_when {A : Type} (b : bool) (g : A → bool) (l : list A) :
  (if b then List.filter g l else l) = List.filter (λ x, negb b || g x) l.
Proof.
  destruct b; cbn; [done |].
  induction l as [| x l IH]; [done |]. cbn. by rewrite <- IH.
Qed.

Lemma filterStage_passes (f : Filters.t) (all : list Problem) :
  filterStage f all = List.filter (passes f) all.
Proof.
  unfold filterStage. cbv zeta.
  rewrite (filter_when (Filters.solved f)), (filter_when (Filters.starred f)).
  rewrite (filter_when (truthy_string (Filters.query f))
             (λ p, includes (toLowerCase (title p)) (toLowerCase (Filters.query f)) ||
                   includes (id p) (toLowerCase (Filters.query f)))).
  rewrite !filter_filter_andb. apply filter_ext. intros p.
  unfold passes, in_range, text_match. by rewrite ?andb_assoc.
Qed.

Lemma truthy_string_true (s : string) : truthy_string s = true ↔ s ≠ "".
Proof. by destruct s. Qed.

Lemma passes_spec (f : Filters.t) (p : Problem) :
  passes f p = true ↔
  (Filters.min f <= inject_Z (rating p))%Q ∧
  (inject_Z (rating p) <= Filters.max f)%Q ∧
  (Filters.solved f = true → solved p = true) ∧
  (Filters.starred f = true → starred p = true) ∧
  (Filters.query f ≠ "" →
     occurs_in (toLowerCase (Filters.query f)) (toLowerCase (title p)) ∨
     occurs_in (toLowerCase (Filters.query f)) (id p)).
Proof.
  unfold passes, in_range, text_match.
  rewrite !andb_true_iff, !orb_true_iff, !negb_true_iff, !Qle_bool_iff,
    !includes_spec.
  rewrite <- (truthy_string_true (Filters.query f)).
  destruct (Filters.solved f), (Filters.starred f),
    (truthy_string (Filters.query f)); intuition congruence.
Qed.

Lemma text_match_lower_id (q : string) (p : Problem) :
  toLowerCase (id p) = id p → text_match q p = text_match_ignoring_case q p.
Proof. intros H. unfold text_match, text_match_ignoring_case. by rewrite H. Qed.

(** C3, as the code has it.  The filter stage keeps, in their order, exactly
    the records that pass every active predicate: the rating between the two
    bounds, bounds included; solved when the solved filter is on; starred
    when the starred filter is on; and, when the query is not empty, the query
    in lower case occurring in the title in lower case or in the identifier as
    it is stored.  A record that fails one of them is not kept.  For an
    identifier without capital letter, as every identifier the merge makes,
    the match on the identifier ignores case as well. *)
Theorem filterStage_spec (f : Filters.t) (all : list Problem) :
  filterStage f all = List.filter (passes f) all ∧
  (∀ p, p ∈ filterStage f all ↔
        p ∈ all ∧
        (Filters.min f <= inject_Z (rating p))%Q ∧
        (inject_Z (rating p) <= Filters.max f)%Q ∧
        (Filters.solved f = true → solved p = true) ∧
        (Filters.starred f = true → starred p = true) ∧
        (Filters.query f ≠ "" →
           occurs_in (toLowerCase (Filters.query f)) (toLowerCase (title p)) ∨
           occurs_in (toLowerCase (Filters.query f)) (id p))) ∧
  (∀ p, toLowerCase (id p) = id p →
        (p ∈ filterStage f all ↔ p ∈ all ∧ passes_ignoring_case f p = true)) ∧
  (∀ saved raw p, p ∈ merge saved raw → toLowerCase (id p) = id p).
Proof.
  assert (Hin : ∀ p, p ∈ filterStage f all ↔ p ∈ all ∧ passes f p = true).
  { intros p. rewrite filterStage_passes, !list_elem_of_In. apply filter_In. }
  split; [apply filterStage_passes |]. split; [| split].
  - intros p. by rewrite Hin, passes_spec.
  - intros p Hid. rewrite Hin. unfold passes, passes_ignoring_case.
    by rewrite text_match_lower_id.
  - intros saved raw p Hp. apply list_elem_of_fmap in Hp as (r & -> & _).
    apply toLowerCase_ToString.
Qed.

Lemma filterStage_spec_witness :
  filterStage (with_query "SUM") [capital_id; two_sum_saved] = [capital_id; two_sum_saved] ∧
  (two_sum_saved ∈ filterStage (with_query "SUM") [capital_id; two_sum_saved] ↔
   two_sum_saved ∈ [capital_id; two_sum_saved] ∧
   passes_ignoring_case (with_query "SUM") two_sum_saved = true).
Proof.
  destruct (filterStage_spec (with_query "SUM") [capital_id; two_sum_saved])
    as (Heq & _ & Hci & _).
  split; [rewrite Heq; reflexivity |].
  apply (Hci two_sum_saved). reflexivity.
Defined.

(** C3, as the specification states it, fails: the record [capital_id] passes every
    active predicate when the match on the identifier ignores case, the query
    "a1" occurring in its identifier "A1", and the filter stage drops it. *)
Lemma identifier_match_keeps_case :
  passes_ignoring_case (with_query "a1") capital_id = true ∧
  filterStage (with_query "a1") [capital_id] = [] ∧
  ¬ (capital_id ∈ filterStage (with_query "a1") [capital_id] ↔
     capital_id ∈ [capital_id] ∧ passes_ignoring_case (with_query "a1") capital_id = true).
Proof.
  split; [reflexivity |]. split; [reflexivity |].
  intros [_ H]. assert (Hin : capital_id ∈ filterStage (with_query "a1") [capital_id]).
  { apply H. split; [apply list_elem_of_here | reflexivity]. }
  change (filterStage (with_query "a1") [capital_id]) with (@nil Problem) in Hin.
  by apply elem_of_nil in Hin.
Qed.

(** ** Stable sorting with a comparator *)

Section Sorting.
Context {A : Type} (cmp : A → A → Z).

Lemma sort_insert_perm (x : A) (l : list A) :
  Permutation (sort_insert cmp x l) (x :: l).
Proof.
  induction l as [| y l IH]; cbn; [done |].
  destruct (cmp x y <=? 0)%Z; [done |].
  rewrite IH. apply perm_swap.
Qed.

Lemma Array_sort_perm (l : list A) : Permutation (Array_sort cmp l) l.
Proof.
  induction l as [| x l IH]; cbn; [done |].
  rewrite sort_insert_perm. by apply perm_skip.
Qed.

Hypothesis cmp_total : ∀ a b, (cmp a b ≤ 0)%Z ∨ (cmp b a ≤ 0)%Z.
Hypothesis cmp_trans : ∀ a b c, (cmp a b ≤ 0)%Z → (cmp b c ≤ 0)%Z → (cmp a c ≤ 0)%Z.

Lemma sort_insert_sorted (x : A) (l : list A) :
  StronglySorted (λ a b, (cmp a b ≤ 0)%Z) l →
  StronglySorted (λ a b, (cmp a b ≤ 0)%Z) (sort_insert cmp x l).
Proof.
  induction 1 as [| y l Hl IH Hy]; cbn.
  - constructor; [constructor | constructor].
  - destruct (Z.leb_spec (cmp x y) 0) as [Hle | Hgt].
    + constructor; [by constructor |]. constructor; [done |].
      eapply Forall_impl; [exact Hy |]. intros z Hz. by eapply cmp_trans.
    + constructor; [done |].
      assert (Hyx : (cmp y x ≤ 0)%Z) by (destruct (cmp_total x y); [lia | done]).
      eapply Permutation_Forall; [symmetry; apply sort_insert_perm |].
      by constructor.
Qed.

Lemma Array_sort_sorted (l : list A) :
  StronglySorted (λ a b, (cmp a b ≤ 0)%Z) (Array_sort cmp l).
Proof.
  induction l as [| x l IH]; cbn; [constructor | by apply sort_insert_sorted].
Qed.

Hypothesis cmp_ties : ∀ a x y, cmp a x = 0%Z → cmp a y = 0%Z → cmp x y = 0%Z.

Lemma sort_insert_stable (a x : A) (l : list A) :
  List.filter (λ y, cmp a y =? 0)%Z (sort_insert cmp x l) =
  List.filter (λ y, cmp a y =? 0)%Z (x :: l).
Proof.
  induction l as [| y l IH]; [done |]. cbn [sort_insert].
  destruct (Z.leb_spec (cmp x y) 0) as [Hle | Hgt]; [done |].
  cbn [List.filter] in *. rewrite IH.
  destruct (Z.eqb_spec (cmp a x) 0) as [Hx | Hx]; [| done].
  destruct (Z.eqb_spec (cmp a y) 0) as [Hy | Hy]; [| done].
  pose proof (cmp_ties a x y Hx Hy). lia.
Qed.

Lemma Array_sort_stable (a : A) (l : list A) :
  List.filter (λ y, cmp a y =? 0)%Z (Array_sort cmp l) =
  List.filter (λ y, cmp a y =? 0)%Z l.
Proof.
  induction l as [| x l IH]; [done |]. cbn [Array_sort foldr].
  rewrite sort_insert_stable. cbn [List.filter]. fold (Array_sort cmp l).
  by rewrite IH.
Qed.

Hypothesis cmp_refl : ∀ a, cmp a a = 0%Z.
Hypothesis cmp_antisym : ∀ a b, (cmp a b ≤ 0)%Z → (cmp b a ≤ 0)%Z → cmp a b = 0%Z.

(** An ordered list is determined by its elements and by the order within
    each class of tied elements. *)
Lemma stable_sorted_unique (l1 l2 : list A) :
  Permutation l1 l2 →
  StronglySorted (λ a b, (cmp a b ≤ 0)%Z) l1 →
  StronglySorted (λ a b, (cmp a b ≤ 0)%Z) l2 →
  (∀ a, List.filter (λ y, cmp a y =? 0)%Z l1 = List.filter (λ y, cmp a y =? 0)%Z l2) →
  l1 = l2.
Proof.
  revert l2. induction l1 as [| x l1 IH]; intros l2 Hperm Hs1 Hs2 Hst.
  - by apply Permutation_nil in Hperm.
  - destruct l2 as [| y l2].
    { symmetry in Hperm. by apply Permutation_nil in Hperm. }
    apply StronglySorted_inv in Hs1 as [Hs1 Hx].
    apply StronglySorted_inv in Hs2 as [Hs2 Hy].
    assert (Hxy : (cmp x y ≤ 0)%Z).
    { assert (Hin : In y (x :: l1)).
      { eapply Permutation_in; [symmetry; exact Hperm | by left]. }
      destruct Hin as [<- | Hin]; [by rewrite cmp_refl |].
      rewrite Forall_forall in Hx. by apply Hx, list_elem_of_In. }
    assert (Hyx : (cmp y x ≤ 0)%Z).
    { assert (Hin : In x (y :: l2)).
      { eapply Permutation_in; [exact Hperm | by left]. }
      destruct Hin as [<- | Hin]; [by rewrite cmp_refl |].
      rewrite Forall_forall in Hy. by apply Hy, list_elem_of_In. }
    pose proof (cmp_antisym x y Hxy Hyx) as Htie.
    pose proof (Hst x) as Hhead. cbn [List.filter] in Hhead.
    rewrite cmp_refl, Htie in Hhead. cbn in Hhead. injection Hhead as <- _.
    f_equal. apply IH; [by eapply Permutation_cons_inv | done | done |].
    intros a. specialize (Hst a). cbn [List.filter] in Hst.
    destruct (cmp a x =? 0)%Z; [by injection Hst | done].
Qed.

(** Any stable sort gives the list that [Array_sort] gives. *)
Lemma Array_sort_unique (l l' : list A) :
  Permutation l' l →
  StronglySorted (λ a b, (cmp a b ≤ 0)%Z) l' →
  (∀ a, List.filter (λ y, cmp a y =? 0)%Z l' = List.filter (λ y, cmp a y =? 0)%Z l) →
  l' = Array_sort cmp l.
Proof.
  intros Hperm Hsorted Hstable. apply stable_sorted_unique.
  - rewrite Hperm. symmetry. apply Array_sort_perm.
  - done.
  - apply Array_sort_sorted.
  - intros a. by rewrite Array_sort_stable.
Qed.

End Sorting.

(** ** The natural ordering of values *)

Lemma ascii_compare_Lt_trans (x y z : ascii) :
  Ascii.compare x y = Lt → Ascii.compare y z = Lt → Ascii.compare x z = Lt.
Proof.
  unfold Ascii.compare. rewrite !N.compare_lt_iff. apply N.lt_trans.
Qed.

Lemma string_compare_refl (s : string) : String.compare s s = Eq.
Proof.
  pose proof (String.compare_antisym s s) as H.
  by destruct (String.compare s s).
Qed.

Lemma string_compare_trans (a b c : string) :
  String.compare a b ≠ Gt → String.compare b c ≠ Gt → String.compare a c ≠ Gt.
Proof.
  revert b c. induction a as [| x a IH]; intros [| y b] [| z c]; cbn; try done.
  destruct (Ascii.compare x y) eqn:Exy; [| | done].
  - apply Ascii.compare_eq_iff in Exy as ->.
    destruct (Ascii.compare y z); [apply IH | done | done].
  - destruct (Ascii.compare y z) eqn:Eyz; [| | done].
    + apply Ascii.compare_eq_iff in Eyz as <-. by rewrite Exy.
    + by rewrite (ascii_compare_Lt_trans x y z).
Qed.

Lemma sort_key_same_kind (k : keyof_Problem) (a b : Problem) :
  same_kind (sort_key k a) (sort_key k b).
Proof. destruct k; constructor. Qed.

Lemma value_compare_antisym (A B : value) :
  value_compare A B = CompOpp (value_compare B A).
Proof.
  destruct A as [x | x | x | x], B as [y | y | y | y]; cbn; try done.
  - apply Z.compare_antisym.
  - apply String.compare_antisym.
  - by destruct x, y.
Qed.

Lemma value_lt_Lt (A B : value) :
  same_kind A B → value_lt A B = true ↔ value_compare A B = Lt.
Proof.
  intros [x y | x y | x y]; cbn.
  - by rewrite Z.ltb_lt.
  - unfold String.ltb. by destruct (String.compare x y).
  - by destruct x, y.
Qed.

Lemma value_compare_Eq (A B : value) :
  same_kind A B → value_compare A B = Eq ↔ A = B.
Proof.
  intros [x y | x y | x y]; cbn.
  - rewrite Z.compare_eq_iff. split; congruence.
  - split; [by intros ->%String.compare_eq_iff |].
    intros [= ->]. apply string_compare_refl.
  - destruct x, y; cbn; split; congruence.
Qed.

Lemma value_compare_trans (A B C : value) :
  same_kind A B → same_kind B C →
  value_compare A B ≠ Gt → value_compare B C ≠ Gt → value_compare A C ≠ Gt.
Proof.
  intros [x y | x y | x y] HBC; inversion HBC; subst; cbn.
  - rewrite !Z.compare_gt_iff. lia.
  - apply string_compare_trans.
  - by destruct x, y, y0.
Qed.

(** ** The comparator of the specification *)

Lemma ordinal_sort_key (k : keyof_Problem) (d : Dir) (a b : Problem) :
  ordinal_comparator k d a b =
  if value_lt (sort_key k a) (sort_key k b) then (if decide (d = asc) then -1 else 1)%Z
  else if value_lt (sort_key k b) (sort_key k a) then (if decide (d = asc) then 1 else -1)%Z
  else 0%Z.
Proof. reflexivity. Qed.

Lemma ordinal_asc_sign (k : keyof_Problem) (a b : Problem) :
  ordinal_comparator k asc a b = sign (value_compare (sort_key k a) (sort_key k b)).
Proof.
  rewrite ordinal_sort_key.
  pose proof (value_lt_Lt _ _ (sort_key_same_kind k a b)) as Hab.
  pose proof (value_lt_Lt _ _ (sort_key_same_kind k b a)) as Hba.
  rewrite (value_compare_antisym (sort_key k b)) in Hba.
  destruct (value_lt (sort_key k a) (sort_key k b)).
  - by rewrite (proj1 Hab).
  - destruct (value_lt (sort_key k b) (sort_key k a)).
    + destruct (value_compare (sort_key k a) (sort_key k b)); try done.
      * by specialize (proj1 Hba eq_refl).
      * by specialize (proj1 Hba eq_refl).
    + destruct (value_compare (sort_key k a) (sort_key k b)); try done.
      * by specialize (proj2 Hab eq_refl).
      * by specialize (proj2 Hba eq_refl).
Qed.

Lemma ordinal_desc (k : keyof_Problem) (a b : Problem) :
  ordinal_comparator k desc a b = (- ordinal_comparator k asc a b)%Z.
Proof.
  rewrite !ordinal_sort_key. cbn.
  by destruct (value_lt (sort_key k a) (sort_key k b)),
    (value_lt (sort_key k b) (sort_key k a)).
Qed.

Lemma ordinal_swap (k : keyof_Problem) (a b : Problem) :
  ordinal_comparator k desc a b = ordinal_comparator k asc b a.
Proof.
  rewrite ordinal_desc, !ordinal_asc_sign, (value_compare_antisym (sort_key k a)).
  by destruct (value_compare (sort_key k b) (sort_key k a)).
Qed.

Lemma ordinal_asc_le (k : keyof_Problem) (a b : Problem) :
  (ordinal_comparator k asc a b ≤ 0)%Z ↔ value_compare (sort_key k a) (sort_key k b) ≠ Gt.
Proof.
  rewrite ordinal_asc_sign.
  destruct (value_compare _ _); cbn; split; (done || lia).
Qed.

Lemma ordinal_zero (k : keyof_Problem) (d : Dir) (a b : Problem) :
  ordinal_comparator k d a b = 0%Z ↔ sort_key k a = sort_key k b.
Proof.
  rewrite <- (value_compare_Eq _ _ (sort_key_same_kind k a b)).
  destruct d; [| rewrite ordinal_desc]; rewrite ordinal_asc_sign;
    destruct (value_compare _ _); cbn; split; (done || lia).
Qed.

Lemma ordinal_total (k : keyof_Problem) (d : Dir) (a b : Problem) :
  (ordinal_comparator k d a b ≤ 0)%Z ∨ (ordinal_comparator k d b a ≤ 0)%Z.
Proof.
  destruct d; rewrite ?ordinal_swap, !ordinal_asc_le,
    (value_compare_antisym (sort_key k b));
    destruct (value_compare (sort_key k a) (sort_key k b)); cbn; auto.
Qed.

Lemma ordinal_trans (k : keyof_Problem) (d : Dir) (a b c : Problem) :
  (ordinal_comparator k d a b ≤ 0)%Z → (ordinal_comparator k d b c ≤ 0)%Z →
  (ordinal_comparator k d a c ≤ 0)%Z.
Proof.
  destruct d; rewrite ?ordinal_swap, !ordinal_asc_le; intros Hab Hbc.
  - eapply value_compare_trans; eauto using sort_key_same_kind.
  - eapply value_compare_trans; eauto using sort_key_same_kind.
Qed.

Lemma ordinal_ties (k : keyof_Problem) (d : Dir) (a x y : Problem) :
  ordinal_comparator k d a x = 0%Z → ordinal_comparator k d a y = 0%Z → ordinal_comparator k d x y = 0%Z.
Proof. rewrite !ordinal_zero. congruence. Qed.

Lemma ordinal_refl (k : keyof_Problem) (d : Dir) (a : Problem) :
  ordinal_comparator k d a a = 0%Z.
Proof. by apply ordinal_zero. Qed.

Lemma ordinal_antisym (k : keyof_Problem) (d : Dir) (a b : Problem) :
  (ordinal_comparator k d a b ≤ 0)%Z → (ordinal_comparator k d b a ≤ 0)%Z → ordinal_comparator k d a b = 0%Z.
Proof.
  destruct d; rewrite ?ordinal_swap, !ordinal_asc_le, ?ordinal_asc_sign,
    (value_compare_antisym (sort_key k b));
    destruct (value_compare (sort_key k a) (sort_key k b)); cbn; done.
Qed.

(** ** The comparator *)


Lemma value_lt_asym (A B : value) : value_lt A B = true → value_lt B A = false.
Proof.
  destruct A as [x | x | x | x], B as [y | y | y | y]; cbn; try done.
  - rewrite Z.ltb_lt, Z.ltb_ge. lia.
  - unfold String.ltb. rewrite (String.compare_antisym x y).
    by destruct (String.compare y x).
  - by destruct x, y.
  - unfold String.ltb. rewrite (String.compare_antisym x y).
    by destruct (String.compare y x).
Qed.

(** On plain records the comparator is the one of the specification. *)
Lemma comparator_plain (k : keyof_Problem) (d : Dir) (a b : Problem) :
  plain k a → plain k b → comparator k d a b = ordinal_comparator k d a b.
Proof.
  intros Ha Hb. unfold comparator, ordinal_comparator, sort_key.
  destruct (decide (k = Kdifficulty)) as [-> | _]; [| done].
  cbn [field String_of_value]. unfold map_get.
  by rewrite (Ha eq_refl), (Hb eq_refl).
Qed.


Lemma comparator_desc (k : keyof_Problem) (a b : Problem) :
  comparator k desc a b = (- comparator k asc a b)%Z.
Proof.
  unfold comparator. cbv zeta.
  destruct (value_lt _ _); [done |]. by destruct (value_lt _ _).
Qed.

Lemma comparator_swap (k : keyof_Problem) (a b : Problem) :
  comparator k desc b a = comparator k asc a b.
Proof.
  unfold comparator. cbv zeta.
  match goal with
  | |- context [value_lt ?A ?B] =>
      pose proof (value_lt_asym A B) as Hab; pose proof (value_lt_asym B A) as Hba
  end.
  destruct (value_lt _ _); [by rewrite Hab |]. by destruct (value_lt _ _).
Qed.




(** ** Sorting a list of plain records *)

Lemma sort_insert_ext_in {A : Type} (cmp cmp' : A → A → Z) (x : A) (xs : list A) :
  (∀ y, y ∈ xs → cmp x y = cmp' x y) →
  sort_insert cmp x xs = sort_insert cmp' x xs.
Proof.
  induction xs as [| y ys IH]; intros Heq; [done |]. cbn.
  rewrite <- (Heq y) by apply list_elem_of_here.
  destruct (cmp x y <=? 0)%Z; [done |]. f_equal. apply IH.
  intros z Hz. by apply Heq, list_elem_of_further.
Qed.

Lemma Array_sort_ext_in {A : Type} (cmp cmp' : A → A → Z) (l : list A) :
  (∀ a b, a ∈ l → b ∈ l → cmp a b = cmp' a b) →
  Array_sort cmp l = Array_sort cmp' l.
Proof.
  induction l as [| x l IH]; intros Heq; [done |]. cbn [Array_sort foldr].
  fold (Array_sort cmp l). fold (Array_sort cmp' l).
  rewrite IH by (intros a b Ha Hb; by apply Heq; apply list_elem_of_further).
  apply sort_insert_ext_in. intros y Hy.
  apply Heq; [apply list_elem_of_here |]. apply list_elem_of_further.
  by rewrite <- (Array_sort_perm cmp' l).
Qed.

Lemma StronglySorted_ext_in {A : Type} (R R' : A → A → Prop) (l : list A) :
  (∀ a b, a ∈ l → b ∈ l → R a b → R' a b) →
  StronglySorted R l → StronglySorted R' l.
Proof.
  intros Himp. induction 1 as [| x l _ IH Hx]; [constructor |].
  constructor.
  - apply IH. intros a b Ha Hb. by apply Himp; apply list_elem_of_further.
  - rewrite Forall_forall in Hx |- *. intros y Hy.
    apply Himp; [apply list_elem_of_here | by apply list_elem_of_further | by apply Hx].
Qed.

Lemma sortStage_plain (k : keyof_Problem) (d : Dir) (l : list Problem) :
  Forall (plain k) l →
  sortStage {| key := Some k; dir := d |} l = Array_sort (ordinal_comparator k d) l.
Proof.
  intros Hplain. cbn [sortStage key dir]. apply Array_sort_ext_in.
  rewrite Forall_forall in Hplain. intros a b Ha Hb.
  by apply comparator_plain; apply Hplain.
Qed.


Lemma sortStage_sorted (k : keyof_Problem) (d : Dir) (l : list Problem) :
  Forall (plain k) l →
  StronglySorted (λ a b, (comparator k d a b ≤ 0)%Z)
    (sortStage {| key := Some k; dir := d |} l).
Proof.
  intros Hplain. rewrite sortStage_plain by done.
  assert (Hsorted_plain : Forall (plain k) (Array_sort (ordinal_comparator k d) l)).
  { by rewrite Array_sort_perm. }
  rewrite Forall_forall in Hsorted_plain.
  eapply StronglySorted_ext_in;
    [| apply Array_sort_sorted; [apply ordinal_total | apply ordinal_trans]].
  intros a b Ha Hb. cbv beta. by rewrite comparator_plain by by apply Hsorted_plain.
Qed.

Lemma sortStage_stable (k : keyof_Problem) (d : Dir) (l : list Problem) (a : Problem) :
  Forall (plain k) l → plain k a →
  List.filter (λ x, comparator k d a x =? 0)%Z (sortStage {| key := Some k; dir := d |} l) =
  List.filter (λ x, comparator k d a x =? 0)%Z l.
Proof.
  intros Hplain Ha. rewrite sortStage_plain by done.
  assert (Hsorted_plain : Forall (plain k) (Array_sort (ordinal_comparator k d) l)).
  { by rewrite Array_sort_perm. }
  rewrite Forall_forall in Hplain, Hsorted_plain.
  rewrite (filter_ext_in (λ x, comparator k d a x =? 0)%Z
             (λ x, ordinal_comparator k d a x =? 0)%Z
             (Array_sort (ordinal_comparator k d) l)),
          (filter_ext_in (λ x, comparator k d a x =? 0)%Z
             (λ x, ordinal_comparator k d a x =? 0)%Z l).
  - apply Array_sort_stable, ordinal_ties.
  - intros x Hx. rewrite comparator_plain; [done | done |].
    by apply Hplain, list_elem_of_In.
  - intros x Hx. rewrite comparator_plain; [done | done |].
    by apply Hsorted_plain, list_elem_of_In.
Qed.

(** On a list of plain records the result of the sort stage does not depend
    on the sorting algorithm of the engine: a permutation of the list that is
    ordered by the comparator and keeps the records tied with each record of
    the list in their order is the list [sortStage] gives. *)
Lemma sortStage_unique (k : keyof_Problem) (d : Dir) (l l' : list Problem) :
  Forall (plain k) l →
  Permutation l' l →
  StronglySorted (λ a b, (comparator k d a b ≤ 0)%Z) l' →
  (∀ a, a ∈ l → List.filter (λ x, comparator k d a x =? 0)%Z l' =
                 List.filter (λ x, comparator k d a x =? 0)%Z l) →
  l' = sortStage {| key := Some k; dir := d |} l.
Proof.
  intros Hplain Hperm Hsorted Hstable. rewrite sortStage_plain by done.
  assert (Hplain' : Forall (plain k) l') by by rewrite Hperm.
  rewrite Forall_forall in Hplain, Hplain'.
  assert (Hmember : ∀ a, a ∈ l →
            List.filter (λ x, ordinal_comparator k d a x =? 0)%Z l' =
            List.filter (λ x, ordinal_comparator k d a x =? 0)%Z l).
  { intros a Ha.
    rewrite <- (filter_ext_in (λ x, comparator k d a x =? 0)%Z _ l'),
            <- (filter_ext_in (λ x, comparator k d a x =? 0)%Z _ l).
    - by apply Hstable.
    - intros x Hx. rewrite comparator_plain; [done | by apply Hplain |].
      by apply Hplain, list_elem_of_In.
    - intros x Hx. rewrite comparator_plain; [done | by apply Hplain |].
      by apply Hplain', list_elem_of_In. }
  apply Array_sort_unique.
  - apply ordinal_total.
  - apply ordinal_trans.
  - apply ordinal_ties.
  - apply ordinal_refl.
  - apply ordinal_antisym.
  - done.
  - eapply StronglySorted_ext_in; [| exact Hsorted].
    intros a b Ha Hb. cbv beta. by rewrite comparator_plain by by apply Hplain'.
  - intros a.
    destruct (List.filter (λ x, ordinal_comparator k d a x =? 0)%Z l)
      as [| a0 rest] eqn:Hf.
    + assert (Hnone : ∀ x, x ∈ l → (ordinal_comparator k d a x =? 0)%Z = false).
      { intros x Hx. destruct (ordinal_comparator k d a x =? 0)%Z eqn:Hax; [| done].
        assert (Hin : In x (List.filter (λ x, ordinal_comparator k d a x =? 0)%Z l)).
        { apply filter_In. split; [by apply list_elem_of_In | done]. }
        by rewrite Hf in Hin. }
      destruct (List.filter _ l') as [| y ys] eqn:Hf'; [done |]. exfalso.
      assert (Hy : In y (List.filter (λ x, ordinal_comparator k d a x =? 0)%Z l'))
        by (rewrite Hf'; by left).
      apply filter_In in Hy as [Hy Hay].
      rewrite (Hnone y) in Hay; [done |]. rewrite <- Hperm. by apply list_elem_of_In.
    + assert (Ha0 : In a0 (List.filter (λ x, ordinal_comparator k d a x =? 0)%Z l))
        by (rewrite Hf; by left).
      apply filter_In in Ha0 as [Ha0 Htie]. apply Z.eqb_eq in Htie.
      rewrite <- Hf.
      assert (Hsame : ∀ x, (ordinal_comparator k d a x =? 0)%Z =
                           (ordinal_comparator k d a0 x =? 0)%Z).
      { intros x. apply ordinal_zero in Htie.
        destruct (Z.eqb_spec (ordinal_comparator k d a x) 0) as [H | H],
                 (Z.eqb_spec (ordinal_comparator k d a0 x) 0) as [H' | H']; try done.
        - destruct H'. apply ordinal_zero. apply ordinal_zero in H. congruence.
        - destruct H. apply ordinal_zero. apply ordinal_zero in H'. congruence. }
      rewrite !(filter_ext _ _ Hsame). by apply Hmember, list_elem_of_In.
Qed.



(** Every label that names a property of [Object.prototype] is tied with the
    three labels of the ordinal mapping, in both directions. *)
Lemma inherited_labels_tie :
  Forall (λ label, ∀ d, Forall (λ ranked,
            comparator Kdifficulty d (labelled "1" label) (labelled "2" ranked) = 0%Z ∧
            comparator Kdifficulty d (labelled "2" ranked) (labelled "1" label) = 0%Z)
            ["Easy"; "Medium"; "Hard"])
    ["constructor"; "__defineGetter__"; "__defineSetter__"; "hasOwnProperty";
     "__lookupGetter__"; "__lookupSetter__"; "isPrototypeOf";
     "propertyIsEnumerable"; "toString"; "valueOf"; "__proto__"; "toLocaleString"].
Proof.
  repeat (apply Forall_cons; split; [intros []; repeat constructor |]).
  apply Forall_nil. done.
Qed.


(** Ascending by difficulty: Easy, then Medium, then Hard, where the labels in
    lexical order would be Easy, Hard, Medium; the two Easy records keep their
    order.  Descending turns the classes around and keeps the order within. *)
Example sort_by_difficulty :
  id <$> sortStage {| key := Some Kdifficulty; dir := asc |}
           [labelled "1" "Hard"; labelled "2" "Easy"; labelled "3" "Medium";
            labelled "4" "Easy"] = ["2"; "4"; "3"; "1"] ∧
  id <$> sortStage {| key := Some Kdifficulty; dir := desc |}
           [labelled "1" "Hard"; labelled "2" "Easy"; labelled "3" "Medium";
            labelled "4" "Easy"] = ["1"; "3"; "2"; "4"].
Proof. split; reflexivity. Qed.

(** ** Pagination *)

Example pages_of_thirty :
  ∃ w, mount ∅ [Some (feed_of_size 30)] = Some w ∧
       pages (ui w) = 2%Z ∧ length (slice (ui w)) = 25%nat ∧
       length (slice (setPage 2 (ui w))) = 5%nat.
Proof. eexists. split; [reflexivity |]. vm_compute. done. Qed.

Lemma run_events_reachable (es : list event) (w w' : World) :
  reachable w → run_events es w = Some w' → reachable w'.
Proof.
  revert w. induction es as [| e es IH]; intros w Hw; cbn.
  - by intros [= <-].
  - destruct (enabled e (ui w)) eqn:Hen; [| done].
    destruct (settle (handle e w)) as [w1 |] eqn:Hstep; [| done]. cbn.
    apply IH. by eapply reach_event.
Qed.

(** C7 fails on the code.  Sixty problems are loaded, 25 to a page; the user
    goes to the last page, the third, and then selects 100 to a page.  The
    page size is not among the dependencies of the effect that returns to
    page 1, so the page index stays 3 while the page count drops to 1: the
    filtered list has sixty records and the slice on display is empty. *)
Theorem page_beyond_last_after_resize :
  ∃ w, mount ∅ [Some (feed_of_size 60)] ≫= run_events [Last; SelectPageSize 100] = Some w ∧
       reachable w ∧
       length (visible (ui w)) = 60%nat ∧
       page (ui w) = 3%Z ∧ pages (ui w) = 1%Z ∧
       slice (ui w) = [] ∧
       ¬ page_in_bounds (ui w).
Proof.
  destruct (mount ∅ [Some (feed_of_size 60)]) as [w0 |] eqn:Hmount;
    [| by vm_compute in Hmount].
  destruct (run_events [Last; SelectPageSize 100] w0) as [w |] eqn:Hrun.
  - exists w. split; [done |].
    split. { eapply run_events_reachable; [| exact Hrun]. by eapply reach_mount. }
    assert (Hw : mount ∅ [Some (feed_of_size 60)] ≫= run_events [Last; SelectPageSize 100]
                 = Some w) by (rewrite Hmount; exact Hrun).
    clear Hmount Hrun. vm_compute in Hw. injection Hw as <-.
    split; [reflexivity |]. split; [reflexivity |]. split; [reflexivity |].
    split; [reflexivity |]. intros Hb.
    assert (1 ≤ 3 ≤ 1)%Z as [_ H]; [apply Hb; discriminate | lia].
  - exfalso.
    assert (Hw : mount ∅ [Some (feed_of_size 60)] ≫= run_events [Last; SelectPageSize 100]
                 = None) by (rewrite Hmount; exact Hrun).
    by vm_compute in Hw.
Qed.

(** *** The page index on the paths that do not change the page size *)

Lemma pages_at_least_one (s : State) :
  (0 < pageSize s)%Z → visible s ≠ [] → (1 ≤ pages s)%Z.
Proof.
  intros Hsize Hvis. unfold pages.
  assert (Hlen : (0 < Z.of_nat (length (visible s)))%Z).
  { destruct (visible s); [done | cbn; lia]. }
  assert (Hq : (0 < inject_Z (Z.of_nat (length (visible s))) / inject_Z (pageSize s))%Q).
  { apply Qlt_shift_div_l.
    - change 0%Q with (inject_Z 0). by rewrite <- Zlt_Qlt.
    - rewrite Qmult_0_l. change 0%Q with (inject_Z 0). by rewrite <- Zlt_Qlt. }
  pose proof (Qle_ceiling (inject_Z (Z.of_nat (length (visible s))) / inject_Z (pageSize s)))
    as Hceil.
  assert (Hpos : (inject_Z 0 < inject_Z (Qceiling
            (inject_Z (Z.of_nat (length (visible s))) / inject_Z (pageSize s))))%Q).
  { change (inject_Z 0) with 0%Q. lra. }
  rewrite <- Zlt_Qlt in Hpos. lia.
Qed.

Lemma pages_of_empty (s : State) : visible s = [] → pages s = 0%Z.
Proof.
  intros Hvis. unfold pages. rewrite Hvis. cbn [length Z.of_nat].
  transitivity (Qceiling 0); [| reflexivity]. apply Qceiling_comp.
  unfold Qdiv. apply Qmult_0_l.
Qed.

Lemma viewEffect_in_bounds (s : State) :
  (0 < pageSize s)%Z → page_in_bounds (viewEffect s).
Proof.
  intros Hsize Hvis. split; [done |].
  change (page (viewEffect s)) with 1%Z. by apply pages_at_least_one.
Qed.

Lemma setLoading_in_bounds (b : bool) (s : State) :
  page_in_bounds s → page_in_bounds (setLoading b s).
Proof. done. Qed.

(** What an event does to the state of the page. *)
Lemma handle_ui (e : event) (w w' : World) :
  settle (handle e w) = Some w' →
  (∃ s0, ui w' = viewEffect s0 ∧ pageSize s0 = pageSize (ui w)) ∨
  ui w' = ui w ∨
  (∃ n, e = SelectPageSize n ∧ ui w' = setPageSize n (ui w)) ∨
  (e = First ∧ ui w' = setPage 1 (ui w)) ∨
  (e = Prev ∧ ui w' = setPage (page (ui w) - 1) (ui w)) ∨
  (e = Next ∧ ui w' = setPage (page (ui w) + 1) (ui w)) ∨
  (e = Last ∧ ui w' = setPage (pages (ui w)) (ui w)).
Proof.
  assert (Hrow : settle (edit_row e w) = Some w' →
    (∃ s0, ui w' = viewEffect s0 ∧ pageSize s0 = pageSize (ui w)) ∨ ui w' = ui w).
  { unfold edit_row, mbind at 1, M_bind, get_state.
    destruct (row_of e ≫= _) as [p |]; [| cbn; intros [= <-]; by right].
    destruct (row_patch e p) as [patch |]; [| cbn; intros [= <-]; by right].
    rewrite update_run. cbn. intros [= <-]. left. eexists. split; reflexivity. }
  destruct e; cbn [handle];
    try (intros H; destruct (Hrow H) as [? | ?]; [by left | right; by left]);
    cbn; intros [= <-]; cbn [ui];
    try (left; eexists; split; reflexivity).
  - right. right. left. eexists. split; reflexivity.
  - right. right. right. left. by split.
  - right. right. right. right. left. by split.
  - do 5 right. left. by split.
  - do 6 right. by split.
Qed.

Lemma page_in_bounds_step (e : event) (w w' : World) :
  ¬ is_resize e → (0 < pageSize (ui w))%Z → enabled e (ui w) = true →
  page_in_bounds (ui w) → settle (handle e w) = Some w' →
  page_in_bounds (ui w') ∧ pageSize (ui w') = pageSize (ui w).
Proof.
  intros Hfixed Hsize Hen Hin Hstep.
  assert (Hpager : ∀ r, enabled e (ui w) = negb (loading (ui w)) && ((1 <? pages (ui w))%Z && r) →
                        (1 < pages (ui w))%Z ∧ r = true ∧ (1 ≤ page (ui w) ≤ pages (ui w))%Z).
  { intros r Heq. rewrite Heq in Hen.
    apply andb_true_iff in Hen as [_ [Hp Hr]%andb_true_iff].
    apply Z.ltb_lt in Hp. split; [done |]. split; [done |]. apply Hin.
    intros Hvis. apply pages_of_empty in Hvis. lia. }
  destruct (handle_ui e w w' Hstep)
    as [(s0 & -> & Hs0) | [-> | [(n & -> & _) | [[-> ->] | [[-> ->] | [[-> ->] | [-> ->]]]]]]].
  - split; [| done]. apply viewEffect_in_bounds. by rewrite Hs0.
  - done.
  - destruct Hfixed. by exists n.
  - destruct (Hpager _ eq_refl) as (Hp & _ & _). split; [| done].
    intros _. cbn. unfold pages in *. cbn. lia.
  - destruct (Hpager _ eq_refl) as (Hp & Hr & Hb). split; [| done].
    apply negb_true_iff, Z.eqb_neq in Hr.
    intros _. cbn. unfold pages in *. cbn. lia.
  - destruct (Hpager _ eq_refl) as (Hp & Hr & Hb). split; [| done].
    apply negb_true_iff, Z.eqb_neq in Hr.
    intros _. cbn. unfold pages in *. cbn. lia.
  - destruct (Hpager _ eq_refl) as (Hp & _ & _). split; [| done].
    intros _. cbn. unfold pages in *. cbn. lia.
Qed.

Lemma fetchAndMerge_cases (w : World) :
  (∃ w1, fetchAndMerge w = Throw w1 ∧ ui w1 = ui w) ∨
  fetchAndMerge w = IllTyped ∨
  (∃ w1 l, fetchAndMerge w = Ok tt w1 ∧
           ui w1 = setLoading false (setAllProblems l (ui w))).
Proof.
  unfold fetchAndMerge, mbind, M_bind, fetch_json, getItem.
  destruct (network w) as [| [raw |] rest]; [left; by eexists | | left; by eexists].
  cbn [localStorage].
  destruct (localStorage w !! STORAGE_KEY) as [[| | j] |]; cbn.
  - right. right. by eexists _, _.
  - left. by eexists.
  - destruct (truthy (prop "data" j)); cbn; [| right; right; by eexists _, _].
    destruct (Problems_ofJSON (prop "data" j)); [| by right; left].
    right. right. by eexists _, _.
  - right. right. by eexists _, _.
Qed.

Lemma cache_hit_cases (w : World) :
  cache_hit w = Throw w ∨ cache_hit w = IllTyped ∨ cache_hit w = Ok false w ∨
  ∃ w1 l, cache_hit w = Ok true w1 ∧
          ui w1 = setLoading false (setAllProblems l (ui w)).
Proof.
  unfold cache_hit, mbind, M_bind, getItem.
  destruct (localStorage w !! STORAGE_KEY) as [[| | j] |]; cbn; auto.
  destruct j; cbn; auto.
  destruct (is_DATA_VERSION _); cbn; auto.
  destruct (Problems_ofJSON _); cbn; auto.
  do 3 right. by eexists _, _.
Qed.

Lemma loadData_ui (w w' : World) :
  settle (loadData w) = Some w' →
  ui w' = ui w ∨ ∃ l, ui w' = setLoading false (setAllProblems l (ui w)).
Proof.
  assert (Hfetch : ∀ w0, ui w0 = ui w → settle (fetchAndMerge w0) = Some w' →
            ui w' = ui w ∨ ∃ l, ui w' = setLoading false (setAllProblems l (ui w))).
  { intros w0 Hw0.
    destruct (fetchAndMerge_cases w0) as [(w1 & -> & Hui) | [-> | (w1 & l & -> & Hui)]];
      cbn; [| done |]; intros [= <-].
    - left. congruence.
    - right. exists l. congruence. }
  unfold loadData, try_catch, mbind, M_bind.
  destruct (cache_hit_cases w) as [-> | [-> | [-> | (w1 & l & -> & Hui)]]].
  - by apply Hfetch.
  - done.
  - destruct (fetchAndMerge_cases w) as [(w1 & Hf & Hui) | [Hf | (w1 & l & Hf & Hui)]];
      rewrite Hf.
    + by apply Hfetch.
    + done.
    + cbn. intros [= <-]. right. by exists l.
  - cbn. intros [= <-]. right. by exists l.
Qed.

Lemma mount_in_bounds (ls : gmap string item)
    (net : list (option (list RawItem))) (w : World) :
  mount ls net = Some w → page_in_bounds (ui w) ∧ pageSize (ui w) = 25%Z.
Proof.
  intros Hmount. apply loadData_ui in Hmount as [-> | [l ->]]; cbn [ui].
  - by split.
  - split; [| done]. apply setLoading_in_bounds, viewEffect_in_bounds. done.
Qed.

(** As long as the page size is not changed, the page on display exists. *)
Lemma page_in_bounds_fixed_size (w : World) :
  reachable_by (λ e, ¬ is_resize e) w →
  page_in_bounds (ui w) ∧ pageSize (ui w) = 25%Z.
Proof.
  induction 1 as [ls net w Hmount | w e w' _ [IHin IHsize] Hfixed Hen Hstep].
  - by eapply mount_in_bounds.
  - destruct (page_in_bounds_step e w w') as [Hin Hsize]; try done.
    + by rewrite IHsize.
    + split; [done | congruence].
Qed.

(** * Further properties of the page *)

(** ** Pages and slices *)

(** The page count is the quotient of the length by the page size, rounded
    up. *)
Lemma pages_bounds (s : State) :
  (0 < pageSize s)%Z →
  ((pages s - 1) * pageSize s < Z.of_nat (length (visible s)) ≤ pages s * pageSize s)%Z.
Proof.
  intros Hsize. unfold pages.
  set (len := Z.of_nat (length (visible s))). set (ps := pageSize s) in *.
  set (x := (inject_Z len / inject_Z ps)%Q).
  assert (Hps : (0 < inject_Z ps)%Q).
  { change 0%Q with (inject_Z 0). by rewrite <- Zlt_Qlt. }
  assert (Hx : (x * inject_Z ps == inject_Z len)%Q).
  { unfold x. field. lra. }
  pose proof (Qle_ceiling x) as Hup. pose proof (Qceiling_lt x) as Hlow.
  split.
  - rewrite Zlt_Qlt, inject_Z_mult, <- Hx.
    apply Qmult_lt_compat_r; [done |]. exact Hlow.
  - rewrite Zle_Qle, inject_Z_mult, <- Hx.
    apply Qmult_le_compat_r; [exact Hup | lra].
Qed.

Lemma Array_slice_take_drop {A : Type} (xs : list A) (s e : Z) :
  (0 ≤ s ≤ e)%Z →
  Array_slice xs s e = take (Z.to_nat (e - s)) (drop (Z.to_nat s) xs).
Proof.
  intros [Hs He]. unfold Array_slice, slice_index.
  destruct (Z.ltb_spec s 0) as [? | _]; [lia |].
  destruct (Z.ltb_spec e 0) as [? | _]; [lia |].
  destruct (Z.le_gt_cases s (Z.of_nat (length xs))) as [Hin | Hout].
  - rewrite (Z.min_l s) by done.
    rewrite <- (take_ge (drop (Z.to_nat s) xs)
                  (Z.to_nat (Z.of_nat (length xs) - s))) at 2
      by (rewrite length_drop; lia).
    rewrite take_take. f_equal. lia.
  - rewrite (Z.min_r s), (Z.min_r e) by lia.
    rewrite (drop_ge xs (Z.to_nat s)) by lia.
    rewrite Z.sub_diag. by rewrite take_nil.
Qed.

(** The slice of page [p], for a page index from 1 on. *)
Lemma slice_take_drop (s : State) :
  (1 ≤ page s)%Z → (0 < pageSize s)%Z →
  slice s = take (Z.to_nat (pageSize s))
                 (drop (Z.to_nat ((page s - 1) * pageSize s)) (visible s)).
Proof.
  intros Hpage Hsize. unfold slice. rewrite Array_slice_take_drop by nia.
  f_equal. lia.
Qed.

Lemma chunks_concat {A : Type} (n m : nat) (l : list A) :
  (0 < n)%nat → (length l ≤ m * n)%nat →
  concat ((λ i, take n (drop (i * n) l)) <$> seq 0 m) = l.
Proof.
  intros Hn. revert l. induction m as [| m IH]; intros l Hlen.
  - destruct l; [done | cbn in Hlen; lia].
  - cbn [seq fmap list_fmap concat]. rewrite Nat.mul_0_l, drop_0.
    rewrite <- seq_shift, <- list_fmap_compose.
    transitivity (take n l ++ drop n l); [| apply take_drop]. f_equal.
    rewrite <- (IH (drop n l)) by (rewrite length_drop; lia).
    f_equal. apply list_fmap_ext. intros _ i _. cbn.
    by rewrite drop_drop.
Qed.

(** X1.  With a positive page size the pages partition the filtered list:
    the slices of the pages 1 to [pages], one after the other, are the list;
    every page before the last holds [pageSize] records, and the last page of
    a list that is not empty holds between 1 and [pageSize] records. *)
Theorem slices_partition (s : State) :
  (0 < pageSize s)%Z →
  concat ((λ p, slice (setPage (Z.of_nat p) s)) <$> seq 1 (Z.to_nat (pages s)))
    = visible s ∧
  (∀ p, (1 ≤ p < pages s)%Z →
        length (slice (setPage p s)) = Z.to_nat (pageSize s)) ∧
  (visible s ≠ [] →
   (0 < length (slice (setPage (pages s) s)) ≤ Z.to_nat (pageSize s))%nat).
Proof.
  intros Hsize. pose proof (pages_bounds s Hsize) as [Hlow Hup].
  assert (Hslice : ∀ p, (1 ≤ p)%Z →
            slice (setPage p s) =
            take (Z.to_nat (pageSize s))
                 (drop (Z.to_nat (p - 1) * Z.to_nat (pageSize s)) (visible s))).
  { intros p Hp. rewrite slice_take_drop by done.
    cbn [page pageSize visible setPage]. do 2 f_equal. nia. }
  split; [| split].
  - rewrite <- seq_shift, <- list_fmap_compose.
    etransitivity;
      [| apply (chunks_concat (Z.to_nat (pageSize s)) (Z.to_nat (pages s))); nia].
    f_equal. apply list_fmap_ext. intros _ i _. cbn [compose].
    rewrite Hslice by lia. do 3 f_equal. lia.
  - intros p [Hp1 Hp2]. rewrite Hslice by done.
    rewrite length_take, length_drop. nia.
  - intros Hvis. pose proof (pages_at_least_one s Hsize Hvis) as Hp.
    rewrite Hslice by done. rewrite length_take, length_drop. nia.
Qed.

Lemma slices_partition_witness :
  (0 < pageSize (ui ready_world))%Z ∧
  concat ((λ p, slice (setPage (Z.of_nat p) (ui ready_world))) <$>
            seq 1 (Z.to_nat (pages (ui ready_world))))
    = visible (ui ready_world).
Proof.
  split; [reflexivity |].
  exact (proj1 (slices_partition (ui ready_world) eq_refl)).
Defined.

(** X2.  For a page index from 1 on and a positive page size, the slice on
    display is not empty exactly when the page index is at most the page
    count. *)
Theorem slice_nonempty_iff (s : State) :
  (1 ≤ page s)%Z → (0 < pageSize s)%Z →
  slice s ≠ [] ↔ (page s ≤ pages s)%Z.
Proof.
  intros Hpage Hsize. pose proof (pages_bounds s Hsize) as [Hlow Hup].
  rewrite slice_take_drop by done.
  assert (Hlen : ∀ l : list Problem, l ≠ [] ↔ (0 < length l)%nat).
  { intros [| ? ?]; cbn; split; (done || lia). }
  rewrite Hlen, length_take, length_drop. split; intros H; nia.
Qed.

Lemma slice_nonempty_iff_witness :
  (1 ≤ page (ui ready_world))%Z ∧ (0 < pageSize (ui ready_world))%Z ∧
  (slice (ui ready_world) ≠ [] ↔ (page (ui ready_world) ≤ pages (ui ready_world))%Z).
Proof.
  split; [vm_compute; discriminate |]. split; [reflexivity |].
  apply (slice_nonempty_iff (ui ready_world)); [vm_compute; discriminate | reflexivity].
Defined.

(** ** What the load and the events do to the world *)

Lemma snapshot_in_sync (ls : gmap string item)
    (net : list (option (list RawItem))) (s : State) (l : list Problem) :
  allProblems s = l →
  in_sync (world_of (<[STORAGE_KEY := Document (snapshot l)]> ls) net s).
Proof.
  intros Hl. exists (snapshot l). cbn [localStorage world_of ui].
  split; [apply lookup_insert_eq |]. split; [reflexivity |].
  rewrite Hl. apply Problems_ofJSON_list_toJSON.
Qed.

Lemma published_in_sync (w : World) (rest : list (option (list RawItem)))
    (l : list Problem) :
  in_sync (published w rest l).
Proof. by apply snapshot_in_sync. Qed.

Lemma tail_drop {A : Type} (n : nat) (l : list A) :
  tail (drop n l) = drop (S n) l.
Proof.
  revert n. induction l as [| x l IH]; intros [| n]; cbn; done.
Qed.

Lemma fetchAndMerge_outcome (w : World) :
  (∃ w1, fetchAndMerge w = Throw w1 ∧ ui w1 = ui w ∧
         localStorage w1 = localStorage w ∧ network w1 = tail (network w)) ∨
  fetchAndMerge w = IllTyped ∨
  (∃ raw rest saved, network w = Some raw :: rest ∧
     fetchAndMerge w = Ok tt (published w rest (merge saved raw))).
Proof.
  unfold fetchAndMerge, mbind, M_bind, fetch_json, getItem.
  destruct (network w) as [| [raw |] rest] eqn:Hnet.
  - left. exists w. by rewrite Hnet.
  - cbn [localStorage].
    destruct (localStorage w !! STORAGE_KEY) as [[| | j] |]; cbn.
    + right. right. by eexists raw, rest, [].
    + left. by eexists.
    + destruct (truthy (prop "data" j)); cbn; [| right; right; by eexists raw, rest, []].
      destruct (Problems_ofJSON (prop "data" j)) as [saved |]; [| by right; left].
      right. right. by eexists raw, rest, saved.
    + right. right. by eexists raw, rest, [].
  - left. by eexists.
Qed.

Lemma cache_hit_outcome (w : World) :
  cache_hit w = Throw w ∨ cache_hit w = IllTyped ∨ cache_hit w = Ok false w ∨
  ∃ j l, localStorage w !! STORAGE_KEY = Some (Document j) ∧
         is_DATA_VERSION (prop "version" j) = true ∧
         Problems_ofJSON (prop "data" j) = Some l ∧
         cache_hit w =
           Ok true (world_of (localStorage w) (network w)
                      (setLoading false (setAllProblems l (ui w)))).
Proof.
  unfold cache_hit, mbind, M_bind, getItem.
  destruct (localStorage w !! STORAGE_KEY) as [[| | j] |] eqn:Hc; cbn; auto.
  destruct j; cbn; auto;
    match goal with
    | |- context [is_DATA_VERSION ?v] => destruct (is_DATA_VERSION v) eqn:Hv
    end; cbn; auto.
  destruct (Problems_ofJSON _) as [l |] eqn:Hl; cbn; auto.
  do 3 right. by eexists _, l.
Qed.

(** The three outcomes of [loadData], after at most two requests: it throws
    and leaves the state and the storage as they were; or the stored value is
    not of the declared type; or it publishes a list, with the storage in
    sync and no other key written. *)
Lemma loadData_outcome (w : World) :
  (∃ w1 n, loadData w = Throw w1 ∧ ui w1 = ui w ∧ localStorage w1 = localStorage w ∧
           (n ≤ 2)%nat ∧ network w1 = drop n (network w)) ∨
  loadData w = IllTyped ∨
  (∃ w1 l n, loadData w = Ok tt w1 ∧
             ui w1 = setLoading false (setAllProblems l (ui w)) ∧
             in_sync w1 ∧
             (∀ k, k ≠ STORAGE_KEY → localStorage w1 !! k = localStorage w !! k) ∧
             (n ≤ 2)%nat ∧ network w1 = drop n (network w)).
Proof.
  assert (Hfetch : ∀ w0 n, ui w0 = ui w → localStorage w0 = localStorage w →
            network w0 = drop n (network w) →
            (∃ w1, fetchAndMerge w0 = Throw w1 ∧ ui w1 = ui w ∧
                   localStorage w1 = localStorage w ∧
                   network w1 = drop (S n) (network w)) ∨
            fetchAndMerge w0 = IllTyped ∨
            (∃ w1 l, fetchAndMerge w0 = Ok tt w1 ∧
                     ui w1 = setLoading false (setAllProblems l (ui w)) ∧
                     in_sync w1 ∧
                     (∀ k, k ≠ STORAGE_KEY → localStorage w1 !! k = localStorage w !! k) ∧
                     network w1 = drop (S n) (network w))).
  { intros w0 n Hui Hls Hnet.
    assert (Htail : tail (network w0) = drop (S n) (network w)).
    { rewrite Hnet. apply tail_drop. }
    destruct (fetchAndMerge_outcome w0)
      as [(w1 & -> & Hui1 & Hls1 & Hnet1) | [-> | (raw & rest & saved & Hn & ->)]].
    - left. exists w1. repeat split; congruence.
    - by right; left.
    - right. right. eexists _, (merge saved raw). split; [done |].
      split; [cbn; by rewrite Hui |]. split; [apply published_in_sync |].
      split.
      + intros k Hk. cbn. rewrite lookup_insert_ne by done. by rewrite Hls.
      + cbn. rewrite <- Htail, Hn. done. }
  unfold loadData, try_catch, mbind, M_bind.
  destruct (cache_hit_outcome w)
    as [-> | [-> | [-> | (j & l & Hc & Hv & Hl & ->)]]].
  - destruct (Hfetch w 0%nat)
      as [(w1 & -> & ? & ? & ?) | [-> | (w1 & l & -> & ? & ? & ? & ?)]]; try done.
    + left. exists w1, 1%nat. repeat split; try done. lia.
    + by right; left.
    + right. right. exists w1, l, 1%nat. repeat split; try done. lia.
  - by right; left.
  - destruct (Hfetch w 0%nat)
      as [(w1 & -> & Hu1 & Hl1 & Hn1) | [-> | (w1 & l & -> & ? & ? & ? & ?)]]; try done.
    + destruct (Hfetch w1 1%nat)
        as [(w2 & -> & ? & ? & ?) | [-> | (w2 & l & -> & ? & ? & ? & ?)]]; try done.
      * left. exists w2, 2%nat. repeat split; try done.
      * by right; left.
      * right. right. exists w2, l, 2%nat. repeat split; try done.
    + by right; left.
    + right. right. exists w1, l, 1%nat. repeat split; try done. lia.
  - right. right. eexists _, l, 0%nat. split; [reflexivity |]. split; [reflexivity |].
    split; [| split; [done | split; [lia | done]]].
    exists j. cbn [localStorage world_of ui]. by repeat split.
Qed.

(** What an event leaves alone: the network and the loading flag always, and
    the full list and the storage unless it is the edit of a row on display,
    which is one [update] with the patch of that row. *)
Lemma handle_outcome (e : event) (w w' : World) :
  settle (handle e w) = Some w' →
  network w' = network w ∧ loading (ui w') = loading (ui w) ∧
  ((allProblems (ui w') = allProblems (ui w) ∧ localStorage w' = localStorage w) ∨
   (∃ p patch, row_of e ≫= (λ r, slice (ui w) !! r) = Some p ∧
               row_patch e p = Some patch ∧
               update (id p) patch w = Ok tt w')).
Proof.
  assert (Hrow : settle (edit_row e w) = Some w' →
    network w' = network w ∧ loading (ui w') = loading (ui w) ∧
    ((allProblems (ui w') = allProblems (ui w) ∧ localStorage w' = localStorage w) ∨
     (∃ p patch, row_of e ≫= (λ r, slice (ui w) !! r) = Some p ∧
                 row_patch e p = Some patch ∧
                 update (id p) patch w = Ok tt w'))).
  { unfold edit_row, mbind at 1, M_bind, get_state.
    destruct (row_of e ≫= _) as [p |] eqn:Hp;
      [| cbn; intros [= <-]; split; [done |]; split; [done |]; by left].
    destruct (row_patch e p) as [patch |] eqn:Hpatch;
      [| cbn; intros [= <-]; split; [done |]; split; [done |]; by left].
    intros Hstep. rewrite update_run in Hstep. cbn in Hstep. injection Hstep as <-.
    split; [done |]. split; [done |]. right. exists p, patch.
    split; [done |]. split; [done |]. by rewrite update_run. }
  destruct e; cbn [handle]; try (by apply Hrow);
    cbn; intros [= <-]; split; try done; split; try done; by left.
Qed.

(** ** Invariants of the reachable worlds *)

Lemma fresh_world_reachable (allowed : event → Prop) :
  reachable_by allowed fresh_world.
Proof. apply (reach_mount allowed ∅ [Some [two_sum]]). reflexivity. Qed.

(** X3.  As long as the page size is not changed, the page on display exists
    in every world the page can reach: with a filtered list that is not empty
    the page index lies between 1 and the page count; the page size is 25. *)
Theorem page_in_bounds_invariant (w : World) :
  reachable_by (λ e, ¬ is_resize e) w →
  page_in_bounds (ui w) ∧ pageSize (ui w) = 25%Z.
Proof.
  induction 1 as [ls net w Hmount | w e w' _ [IHin IHsize] Hfixed Hen Hstep].
  - by eapply mount_in_bounds.
  - destruct (page_in_bounds_step e w w') as [Hin Hsize]; try done.
    + by rewrite IHsize.
    + split; [done | congruence].
Qed.

Lemma page_in_bounds_invariant_witness :
  reachable_by (λ e, ¬ is_resize e) fresh_world ∧
  page_in_bounds (ui fresh_world) ∧ pageSize (ui fresh_world) = 25%Z.
Proof.
  split; [apply fresh_world_reachable |].
  exact (page_in_bounds_invariant fresh_world (fresh_world_reachable _)).
Defined.

Lemma viewEffect_consistent (s : State) : view_consistent (viewEffect s).
Proof. reflexivity. Qed.

Lemma reachable_view_consistent (w : World) :
  reachable w → view_consistent (ui w).
Proof.
  induction 1 as [ls net w Hmount | w e w' _ IH _ _ Hstep].
  - apply loadData_ui in Hmount as [-> | [l ->]]; apply viewEffect_consistent.
  - destruct (handle_ui e w w' Hstep)
      as [(s0 & -> & _) | [-> | [(n & _ & ->) | [[_ ->] | [[_ ->] | [[_ ->] | [_ ->]]]]]]];
      done || apply viewEffect_consistent.
Qed.

(** X4.  In every world the page can reach, the list on display is the
    filtered and sorted full list under the filters and sort specification in
    force, the page index is at least 1, and the page size is 25, 50 or
    100. *)
Theorem reachable_view (w : World) :
  reachable w →
  view_consistent (ui w) ∧ (1 ≤ page (ui w))%Z ∧
  (pageSize (ui w) = 25 ∨ pageSize (ui w) = 50 ∨ pageSize (ui w) = 100)%Z.
Proof.
  induction 1 as [ls net w Hmount | w e w' _ (IHview & IHpage & IHsize) _ Hen Hstep].
  - apply loadData_ui in Hmount as [-> | [l ->]]; cbn [ui].
    + split; [apply viewEffect_consistent |]. split; [done | by left].
    + split; [apply viewEffect_consistent |]. split; [done | by left].
  - assert (Hpager : ∀ r, enabled e (ui w) =
                negb (loading (ui w)) && ((1 <? pages (ui w))%Z && negb r) →
                (1 < pages (ui w))%Z ∧ r = false).
    { intros r Heq. rewrite Heq in Hen.
      apply andb_true_iff in Hen as [_ [Hp Hr]%andb_true_iff].
      apply Z.ltb_lt in Hp. by apply negb_true_iff in Hr. }
    destruct (handle_ui e w w' Hstep)
      as [(s0 & -> & Hs0) | [-> | [(n & -> & ->) | [[-> ->] | [[-> ->] | [[-> ->] | [-> ->]]]]]]].
    + split; [apply viewEffect_consistent |]. split; [done |].
      change (pageSize (viewEffect s0)) with (pageSize s0). by rewrite Hs0.
    + done.
    + split; [done |]. split; [done |]. cbn in Hen |- *.
      apply andb_true_iff in Hen as [_ Hn]. rewrite !orb_true_iff, !Z.eqb_eq in Hn.
      tauto.
    + done.
    + destruct (Hpager _ eq_refl) as [_ Hne%Z.eqb_neq].
      split; [done |]. split; [cbn; lia | done].
    + split; [done |]. split; [cbn; lia | done].
    + destruct (Hpager _ eq_refl) as [Hp _].
      split; [done |]. split; [cbn; lia | done].
Qed.

Lemma reachable_view_witness :
  reachable fresh_world ∧
  view_consistent (ui fresh_world) ∧ (1 ≤ page (ui fresh_world))%Z ∧
  (pageSize (ui fresh_world) = 25 ∨ pageSize (ui fresh_world) = 50 ∨
   pageSize (ui fresh_world) = 100)%Z.
Proof.
  split; [apply fresh_world_reachable |].
  exact (reachable_view fresh_world (fresh_world_reachable _)).
Defined.

Lemma loadData_hit_typed (w : World) (j : json) (data : list Problem) :
  localStorage w !! STORAGE_KEY = Some (Document j) →
  is_DATA_VERSION (prop "version" j) = true →
  Problems_ofJSON (prop "data" j) = Some data →
  loadData w =
  Ok tt (world_of (localStorage w) (network w)
           (setLoading false (setAllProblems data (ui w)))).
Proof.
  intros Hdoc Hver Hdata.
  unfold loadData, try_catch, cache_hit, mbind, M_bind, getItem.
  rewrite Hdoc. cbn [truthy_item JSON_parse mret M_ret].
  assert (Hmem : member "version" j = mret (prop "version" j)).
  { destruct j; try done. }
  rewrite Hmem. cbn [mret M_ret]. rewrite Hver, Hdata. reflexivity.
Qed.

(** X5.  Once the page has left its loading state, the storage is in sync
    with the memory in every world it can reach: [STORAGE_KEY] holds a
    snapshot of the current version that reads back as the full list.  A
    reload at that point, whatever the network, publishes the same list
    without a request. *)
Theorem reload_restores (w : World) :
  reachable w → loading (ui w) = false →
  in_sync w ∧
  ∀ net, ∃ w', mount (localStorage w) net = Some w' ∧
               allProblems (ui w') = allProblems (ui w) ∧
               loading (ui w') = false ∧ network w' = net ∧
               localStorage w' = localStorage w.
Proof.
  intros Hreach Hready.
  assert (Hsync : in_sync w).
  { induction Hreach as [ls net w Hmount | w e w' _ IH _ Hen Hstep].
    - unfold mount in Hmount.
      destruct (loadData_outcome (world_of ls net (viewEffect initial_state)))
        as [(w1 & n & Hl & Hui & _) | [Hl | (w1 & l & n & Hl & _ & Hs & _)]];
        unfold world_of in Hl; rewrite Hl in Hmount; cbn in Hmount.
      + injection Hmount as <-. by rewrite Hui in Hready.
      + done.
      + by injection Hmount as <-.
    - destruct (handle_outcome e w w' Hstep)
        as (_ & Hload & [[Hall Hls] | (p & patch & _ & _ & Hup)]).
      + destruct IH as (j & Hj & Hv & Hd); [congruence |].
        exists j. by rewrite Hls, Hall.
      + rewrite update_run in Hup. injection Hup as <-.
        by apply snapshot_in_sync. }
  split; [done |]. intros net. destruct Hsync as (j & Hj & Hv & Hd).
  eexists. split.
  - unfold mount. erewrite loadData_hit_typed; [reflexivity | exact Hj | exact Hv | exact Hd].
  - by repeat split.
Qed.

Lemma reload_restores_witness :
  reachable fresh_world ∧ loading (ui fresh_world) = false ∧ in_sync fresh_world ∧
  ∀ net, ∃ w', mount (localStorage fresh_world) net = Some w' ∧
               allProblems (ui w') = allProblems (ui fresh_world) ∧
               loading (ui w') = false ∧ network w' = net ∧
               localStorage w' = localStorage fresh_world.
Proof.
  split; [apply fresh_world_reachable |]. split; [reflexivity |].
  exact (reload_restores fresh_world (fresh_world_reachable _) eq_refl).
Defined.

(** X6.  A world in which the page is still loading is the world of a failed
    first load: the state is the initial one, with an empty list, and no
    event can occur. *)
Theorem loading_is_stuck (w : World) :
  reachable w → loading (ui w) = true →
  ui w = viewEffect initial_state ∧ allProblems (ui w) = [] ∧
  ∀ e, enabled e (ui w) = false.
Proof.
  intros Hreach Hload.
  assert (Hinit : ui w = viewEffect initial_state).
  { induction Hreach as [ls net w Hmount | w e w' _ IH _ Hen Hstep].
    - apply loadData_ui in Hmount as [-> | [l Hl]]; [done |].
      by rewrite Hl in Hload.
    - destruct (handle_outcome e w w' Hstep) as (_ & Hl & _).
      unfold enabled in Hen. rewrite <- Hl, Hload in Hen. done. }
  split; [done |]. split; [by rewrite Hinit |].
  intros e. unfold enabled. by rewrite Hload.
Qed.

Lemma stuck_world_reachable : reachable stuck_world.
Proof.
  apply (reach_mount _ {[ STORAGE_KEY := Malformed ]} [Some [two_sum]]). reflexivity.
Qed.

Lemma loading_is_stuck_witness :
  reachable stuck_world ∧ loading (ui stuck_world) = true ∧
  ui stuck_world = viewEffect initial_state ∧
  allProblems (ui stuck_world) = [] ∧
  ∀ e, enabled e (ui stuck_world) = false.
Proof.
  split; [apply stuck_world_reachable |]. split; [reflexivity |].
  exact (loading_is_stuck stuck_world stuck_world_reachable eq_refl).
Defined.

(** ** The initial load *)

(** X7.  [loadData] is all or nothing.  It makes at most two requests.  When
    it throws, the state of the page and the storage are as before; when it
    returns, the page has left the loading state, the storage is in sync with
    the list published, and no key other than [STORAGE_KEY] was written. *)
Theorem loadData_all_or_nothing (w w1 : World) :
  settle (loadData w) = Some w1 →
  (∃ n, (n ≤ 2)%nat ∧ network w1 = drop n (network w)) ∧
  (∀ k, k ≠ STORAGE_KEY → localStorage w1 !! k = localStorage w !! k) ∧
  ((loadData w = Throw w1 ∧ ui w1 = ui w ∧ localStorage w1 = localStorage w) ∨
   (loadData w = Ok tt w1 ∧ loading (ui w1) = false ∧ in_sync w1)).
Proof.
  destruct (loadData_outcome w)
    as [(w2 & n & -> & Hui & Hls & Hn & Hnet) | [-> | (w2 & l & n & -> & Hui & Hs & Hk & Hn & Hnet)]];
    cbn; [| done |]; intros [= <-].
  - split; [by exists n |]. split; [by rewrite Hls | by left].
  - split; [by exists n |]. split; [done |]. right. by rewrite Hui.
Qed.

Lemma loadData_all_or_nothing_witness :
  settle (loadData absent_world) = Some fresh_world ∧
  (∃ n, (n ≤ 2)%nat ∧ network fresh_world = drop n (network absent_world)) ∧
  (∀ k, k ≠ STORAGE_KEY →
        localStorage fresh_world !! k = localStorage absent_world !! k) ∧
  ((loadData absent_world = Throw fresh_world ∧ ui fresh_world = ui absent_world ∧
    localStorage fresh_world = localStorage absent_world) ∨
   (loadData absent_world = Ok tt fresh_world ∧ loading (ui fresh_world) = false ∧
    in_sync fresh_world)).
Proof.
  split; [reflexivity |].
  exact (loadData_all_or_nothing absent_world fresh_world eq_refl).
Defined.

Lemma cache_hit_miss (w : World) (saved : list Problem) :
  previous_snapshot w saved → cache_unusable w → cache_hit w = Ok false w.
Proof.
  intros Hprev Hcache. unfold cache_hit, mbind at 1, M_bind at 1, getItem.
  destruct Hprev as [Hnone | j saved Hdoc Hdata]; [by rewrite Hnone |].
  rewrite Hdoc. cbn [truthy_item JSON_parse]. unfold mbind, M_bind. cbn [mret M_ret].
  destruct Hcache as [Hc | Hc | Hc | Hc | j' Hc Hver]; rewrite Hdoc in Hc;
    try discriminate.
  - injection Hc as ->. discriminate.
  - injection Hc as ->. destruct j'; try discriminate; cbn [member mret M_ret];
      by rewrite Hver.
Qed.

(** X8.  Without a usable cache, [loadData] asks the network a second time
    when the first request fails: with the second request answered, the merge
    of the feed with the snapshot in the storage is published as after a
    first request answered. *)
Theorem loadData_retries_once (w : World) (saved : list Problem)
    (raw : list RawItem) (rest : list (option (list RawItem))) :
  previous_snapshot w saved → cache_unusable w →
  network w = None :: Some raw :: rest →
  loadData w = Ok tt (published w rest (merge saved raw)).
Proof.
  intros Hprev Hcache Hnet.
  set (w1 := world_of (localStorage w) (Some raw :: rest) (ui w)).
  assert (Hfirst : fetchAndMerge w = Throw w1).
  { unfold fetchAndMerge, mbind, M_bind, fetch_json. by rewrite Hnet. }
  assert (Hsecond : fetchAndMerge w1 = Ok tt (published w rest (merge saved raw))).
  { apply (fetchAndMerge_run w1 saved raw rest); [| done].
    destruct Hprev as [Hnone | j saved Hdoc Hdata].
    - by apply previous_absent.
    - by eapply previous_stored. }
  unfold loadData, try_catch, mbind, M_bind.
  rewrite (cache_hit_miss w saved) by done. by rewrite Hfirst.
Qed.

Lemma loadData_retries_once_witness :
  previous_snapshot (world_of ∅ [None; Some [two_sum]] (viewEffect initial_state)) [] ∧
  cache_unusable (world_of ∅ [None; Some [two_sum]] (viewEffect initial_state)) ∧
  loadData (world_of ∅ [None; Some [two_sum]] (viewEffect initial_state)) =
  Ok tt (published (world_of ∅ [None; Some [two_sum]] (viewEffect initial_state)) []
           (merge [] [two_sum])).
Proof.
  assert (Hprev : previous_snapshot
            (world_of ∅ [None; Some [two_sum]] (viewEffect initial_state)) []).
  { by apply previous_absent. }
  assert (Hcache : cache_unusable
            (world_of ∅ [None; Some [two_sum]] (viewEffect initial_state))).
  { by apply unusable_absent. }
  split; [exact Hprev |]. split; [exact Hcache |].
  exact (loadData_retries_once _ [] [two_sum] [] Hprev Hcache eq_refl).
Defined.

(** ** Events *)

(** X9.  No event makes a request or brings the loading state back, and no
    event writes a key of the storage other than [STORAGE_KEY].  An event
    that is not the edit of a row (a filter, a sort header, the page size,
    the pager) leaves the full list and the whole storage as they are. *)
Theorem events_frame (e : event) (w w' : World) :
  settle (handle e w) = Some w' →
  network w' = network w ∧ loading (ui w') = loading (ui w) ∧
  (∀ k, k ≠ STORAGE_KEY → localStorage w' !! k = localStorage w !! k) ∧
  (row_of e = None →
   allProblems (ui w') = allProblems (ui w) ∧ localStorage w' = localStorage w).
Proof.
  intros Hstep.
  destruct (handle_outcome e w w' Hstep)
    as (Hnet & Hload & [[Hall Hls] | (p & patch & Hrow & _ & Hup)]).
  - split; [done |]. split; [done |]. split; [by rewrite Hls | done].
  - split; [done |]. split; [done |]. split.
    + intros k Hk. rewrite update_run in Hup. injection Hup as <-. cbn.
      by rewrite lookup_insert_ne.
    + intros Hnone. by rewrite Hnone in Hrow.
Qed.

Lemma events_frame_witness :
  settle (handle (ChangeQuery "sum") fresh_world) =
    Some (world_of (localStorage fresh_world) []
            (setFilters (with_query "sum") (ui fresh_world))) ∧
  allProblems (setFilters (with_query "sum") (ui fresh_world)) =
    allProblems (ui fresh_world).
Proof.
  split; [reflexivity |].
  apply (events_frame (ChangeQuery "sum") fresh_world
           (world_of (localStorage fresh_world) []
              (setFilters (with_query "sum") (ui fresh_world)))); reflexivity.
Defined.

(** ** Fetching again *)

Lemma savedMap_merge_hit (saved : list Problem) (raw : list RawItem) (n : Z) :
  n ∈ ID <$> raw →
  ∃ r, ID r = n ∧
       savedMap (merge saved raw) !! ToString n = Some (merge_record (savedMap saved) r).
Proof.
  intros Hn. apply list_elem_of_fmap in Hn as (r0 & -> & Hr0).
  destruct (savedMap (merge saved raw) !! ToString (ID r0)) as [p |] eqn:Hp.
  - apply savedMap_Some in Hp as (l1 & l2 & Hl & Hid & _).
    assert (Hin : p ∈ merge saved raw).
    { rewrite Hl. apply elem_of_app. right. apply list_elem_of_here. }
    apply list_elem_of_fmap in Hin as (r & -> & _).
    exists r. split; [| done]. by apply ToString_inj.
  - exfalso. rewrite savedMap_None in Hp.
    apply (Hp (merge_record (savedMap saved) r0)); [| done].
    unfold merge. by apply list_elem_of_fmap_2.
Qed.

Lemma savedMap_merge_miss (saved : list Problem) (raw : list RawItem) (n : Z) :
  n ∉ (ID <$> raw) → savedMap (merge saved raw) !! ToString n = None.
Proof.
  intros Hn. apply savedMap_None. intros old Hold Hid.
  apply list_elem_of_fmap in Hold as (r & -> & Hr). cbn in Hid.
  apply ToString_inj in Hid as <-. apply Hn. by apply list_elem_of_fmap_2.
Qed.

Lemma or_bool_twice (x : option bool) :
  or_bool (Some (or_bool x false)) false = or_bool x false.
Proof. apply or_bool_Some. Qed.

Lemma or_string_twice (x : option string) :
  or_string (Some (or_string x "")) "" = or_string x "".
Proof. apply or_string_Some. Qed.

Lemma merge_record_again (saved : list Problem) (raw : list RawItem) (r : RawItem) :
  ID r ∈ ID <$> raw →
  merge_record (savedMap (merge saved raw)) r = merge_record (savedMap saved) r.
Proof.
  intros Hin. destruct (savedMap_merge_hit saved raw (ID r) Hin) as (r' & Hid & Hhit).
  unfold merge_record at 1. rewrite Hhit.
  cbn [fmap option_fmap option_map merge_record solved starred notes tc sc].
  rewrite Hid, !or_bool_twice, !or_string_twice. reflexivity.
Qed.

(** X10.  Progress survives a further fetch: when every problem of the new
    feed was in the feed merged before, merging the new feed into the merged
    list gives the list that merging it into the original snapshot gives. *)
Theorem refetch_keeps_progress (saved : list Problem) (raw1 raw2 : list RawItem) :
  (∀ r, r ∈ raw2 → ID r ∈ ID <$> raw1) →
  merge (merge saved raw1) raw2 = merge saved raw2.
Proof.
  intros Hsub. unfold merge at 1 3. apply list_fmap_ext.
  intros i r Hr. apply merge_record_again, Hsub.
  by eapply list_elem_of_lookup_2.
Qed.

Lemma refetch_keeps_progress_witness :
  (∀ r, r ∈ [two_sum] → ID r ∈ ID <$> [two_sum; below_zero]) ∧
  merge (merge [two_sum_saved] [two_sum; below_zero]) [two_sum] =
  merge [two_sum_saved] [two_sum].
Proof.
  assert (Hsub : ∀ r, r ∈ [two_sum] → ID r ∈ ID <$> [two_sum; below_zero]).
  { intros r Hr. apply list_elem_of_singleton in Hr as ->. apply list_elem_of_here. }
  split; [exact Hsub |].
  exact (refetch_keeps_progress [two_sum_saved] [two_sum; below_zero] [two_sum] Hsub).
Defined.

(** Fetching the same feed again changes nothing. *)
Lemma refetch_same_feed (saved : list Problem) (raw : list RawItem) :
  merge (merge saved raw) raw = merge saved raw.
Proof.
  unfold merge at 1 3. apply list_fmap_ext. intros i r Hr.
  apply merge_record_again, list_elem_of_fmap_2.
  by eapply list_elem_of_lookup_2.
Qed.

(** X11.  Progress does not survive an absence: a problem that was missing
    from the feed merged before comes back with solved and starred false and
    notes, tc and sc empty, whatever the original snapshot held for it. *)
Theorem progress_lost_after_absence (saved : list Problem)
    (raw1 raw2 : list RawItem) (i : nat) (r : RawItem) :
  raw2 !! i = Some r → ID r ∉ (ID <$> raw1) →
  ∃ p, merge (merge saved raw1) raw2 !! i = Some p ∧
       id p = ToString (ID r) ∧ default_user_fields p.
Proof.
  intros Hr Hgone. eexists. split.
  - unfold merge at 1. by rewrite list_lookup_fmap, Hr.
  - split; [done |]. unfold merge_record, default_user_fields. cbn.
    by rewrite savedMap_merge_miss.
Qed.

Lemma progress_lost_after_absence_witness :
  [two_sum] !! 0%nat = Some two_sum ∧ (ID two_sum ∉ ID <$> [below_zero]) ∧
  ∃ p, merge (merge [two_sum_saved] [below_zero]) [two_sum] !! 0%nat = Some p ∧
       id p = ToString (ID two_sum) ∧ default_user_fields p.
Proof.
  assert (Hgone : ID two_sum ∉ (ID <$> [below_zero])).
  { intros H. apply list_elem_of_singleton in H. discriminate. }
  split; [reflexivity |]. split; [exact Hgone |].
  exact (progress_lost_after_absence [two_sum_saved] [below_zero] [two_sum] 0 two_sum
           eq_refl Hgone).
Defined.

Lemma inferDifficulty_range (idx : option string) :
  inferDifficulty idx = "Easy" ∨ inferDifficulty idx = "Medium" ∨
  inferDifficulty idx = "Hard".
Proof.
  unfold inferDifficulty. destruct (decide (idx = Some "Q1")); [by left |].
  destruct (Array_includes _ _); [by right; right | by right; left].
Qed.

(** X12.  Every record the merge makes carries one of the three labels the
    table and the comparator know: its difficulty is "Easy", "Medium" or
    "Hard", so its rank is 1, 2 or 3 and never the fallback 0. *)
Theorem merged_difficulty_ranked (saved : list Problem) (raw : list RawItem)
    (p : Problem) :
  p ∈ merge saved raw →
  difficulty p ∈ ["Easy"; "Medium"; "Hard"] ∧
  (1 ≤ difficulty_rank (difficulty p) ≤ 3)%Z.
Proof.
  intros Hp. apply list_elem_of_fmap in Hp as (r & -> & _). cbn [difficulty merge_record].
  destruct (inferDifficulty_range (ProblemIndex r)) as [-> | [-> | ->]];
    (split; [| by vm_compute]).
  - apply list_elem_of_here.
  - apply list_elem_of_further, list_elem_of_here.
  - do 2 apply list_elem_of_further. apply list_elem_of_here.
Qed.

Lemma merged_difficulty_ranked_witness :
  merge_record (savedMap []) below_zero ∈ merge [] [two_sum; below_zero] ∧
  difficulty (merge_record (savedMap []) below_zero) ∈ ["Easy"; "Medium"; "Hard"] ∧
  (1 ≤ difficulty_rank (difficulty (merge_record (savedMap []) below_zero)) ≤ 3)%Z.
Proof.
  assert (Hin : merge_record (savedMap []) below_zero ∈ merge [] [two_sum; below_zero]).
  { apply list_elem_of_further, list_elem_of_here. }
  split; [exact Hin |].
  exact (merged_difficulty_ranked [] [two_sum; below_zero] _ Hin).
Defined.

(** ** How the stages of the pipeline compose *)

Lemma Permutation_filter_bool {A : Type} (f : A → bool) (l1 l2 : list A) :
  Permutation l1 l2 → Permutation (List.filter f l1) (List.filter f l2).
Proof.
  induction 1 as [| x l1 l2 _ IH | x y l | l1 l2 l3 _ IH1 _ IH2]; cbn.
  - done.
  - destruct (f x); [by apply perm_skip | done].
  - destruct (f x), (f y); try done. apply perm_swap.
  - by etransitivity.
Qed.

Lemma StronglySorted_filter {A : Type} (R : A → A → Prop) (f : A → bool) (l : list A) :
  StronglySorted R l → StronglySorted R (List.filter f l).
Proof.
  induction 1 as [| x l _ IH Hx]; cbn; [constructor |].
  destruct (f x); [| done]. constructor; [done |].
  rewrite Forall_forall in Hx |- *. intros y Hy.
  apply Hx. apply list_elem_of_In. apply list_elem_of_In in Hy.
  by apply filter_In in Hy as [Hy _].
Qed.

Lemma filter_filter_comm {A : Type} (f g : A → bool) (l : list A) :
  List.filter f (List.filter g l) = List.filter g (List.filter f l).
Proof.
  rewrite !filter_filter_andb. apply filter_ext. intros x. apply andb_comm.
Qed.

(** X13.  The two stages of the pipeline commute: filtering the sorted list
    gives the list that sorting the filtered list gives, for every filter
    state and every sort specification, when the records of the list are
    plain for the sort key (no difficulty label names a property of
    [Object.prototype]; any list when the key is not the difficulty or there
    is no key). *)
Theorem filter_sort_commute (f : Filters.t) (s : SortSpec) (l : list Problem) :
  (∀ k, key s = Some k → Forall (plain k) l) →
  filterStage f (sortStage s l) = sortStage s (filterStage f l).
Proof.
  intros Hplain. rewrite !filterStage_passes. destruct s as [[k |] d]; [| done].
  specialize (Hplain k eq_refl).
  assert (Hkept : Forall (plain k) (List.filter (passes f) l)).
  { rewrite Forall_forall in Hplain |- *. intros x Hx. apply Hplain.
    apply list_elem_of_In in Hx. apply filter_In in Hx as [Hx _].
    by apply list_elem_of_In. }
  apply sortStage_unique.
  - done.
  - apply Permutation_filter_bool. cbn [sortStage key dir]. apply Array_sort_perm.
  - apply StronglySorted_filter. by apply sortStage_sorted.
  - intros a Ha. rewrite filter_filter_comm, (filter_filter_comm _ (passes f) l).
    f_equal. apply sortStage_stable; [done |].
    rewrite Forall_forall in Hkept. by apply Hkept.
Qed.

Lemma filter_sort_commute_witness :
  (∀ k, key {| key := Some Kdifficulty; dir := asc |} = Some k →
        Forall (plain k) [labelled "10" "Hard"; labelled "9" "Easy"; labelled "7" "Hard"]) ∧
  id <$> filterStage (with_query "1")
           (sortStage {| key := Some Kdifficulty; dir := asc |}
              [labelled "10" "Hard"; labelled "9" "Easy"; labelled "7" "Hard"]) = ["10"] ∧
  filterStage (with_query "1")
    (sortStage {| key := Some Kdifficulty; dir := asc |}
       [labelled "10" "Hard"; labelled "9" "Easy"; labelled "7" "Hard"]) =
  sortStage {| key := Some Kdifficulty; dir := asc |}
    (filterStage (with_query "1")
       [labelled "10" "Hard"; labelled "9" "Easy"; labelled "7" "Hard"]).
Proof.
  assert (Hplain : ∀ k, key {| key := Some Kdifficulty; dir := asc |} = Some k →
            Forall (plain k) [labelled "10" "Hard"; labelled "9" "Easy"; labelled "7" "Hard"]).
  { intros k [= <-]. repeat constructor; intros _; reflexivity. }
  split; [exact Hplain |]. split; [reflexivity |].
  exact (filter_sort_commute (with_query "1") _ _ Hplain).
Defined.

(** X14.  A list of records plain for the sort key that is already in the
    order of the comparator is returned by the sort stage as it is; so, on
    a list of plain records, sorting twice is sorting once. *)
Theorem sortStage_idempotent (k : keyof_Problem) (d : Dir) (l : list Problem) :
  Forall (plain k) l →
  (StronglySorted (λ a b, (comparator k d a b ≤ 0)%Z) l →
   sortStage {| key := Some k; dir := d |} l = l) ∧
  sortStage {| key := Some k; dir := d |} (sortStage {| key := Some k; dir := d |} l) =
  sortStage {| key := Some k; dir := d |} l.
Proof.
  assert (Hfix : ∀ l', Forall (plain k) l' →
                       StronglySorted (λ a b, (comparator k d a b ≤ 0)%Z) l' →
                       sortStage {| key := Some k; dir := d |} l' = l').
  { intros l' Hplain Hsorted. symmetry. by apply sortStage_unique. }
  intros Hplain. split; [by apply Hfix |]. apply Hfix.
  - cbn [sortStage key dir]. by rewrite Array_sort_perm.
  - by apply sortStage_sorted.
Qed.

Lemma sortStage_idempotent_witness :
  Forall (plain Kdifficulty)
    [labelled "9" "Easy"; labelled "10" "Hard"; labelled "7" "Hard"] ∧
  StronglySorted (λ a b, (comparator Kdifficulty asc a b ≤ 0)%Z)
    [labelled "9" "Easy"; labelled "10" "Hard"; labelled "7" "Hard"] ∧
  sortStage {| key := Some Kdifficulty; dir := asc |}
    [labelled "9" "Easy"; labelled "10" "Hard"; labelled "7" "Hard"] =
  [labelled "9" "Easy"; labelled "10" "Hard"; labelled "7" "Hard"].
Proof.
  assert (Hplain : Forall (plain Kdifficulty)
                     [labelled "9" "Easy"; labelled "10" "Hard"; labelled "7" "Hard"]).
  { repeat constructor; intros _; reflexivity. }
  assert (Hsorted : StronglySorted (λ a b, (comparator Kdifficulty asc a b ≤ 0)%Z)
                      [labelled "9" "Easy"; labelled "10" "Hard"; labelled "7" "Hard"]).
  { repeat constructor; vm_compute; discriminate. }
  split; [exact Hplain |]. split; [exact Hsorted |].
  exact (proj1 (sortStage_idempotent Kdifficulty asc _ Hplain) Hsorted).
Defined.

Lemma StronglySorted_snoc {A : Type} (R : A → A → Prop) (l : list A) (x : A) :
  StronglySorted R l → Forall (λ y, R y x) l → StronglySorted R (l ++ [x]).
Proof.
  induction 1 as [| y l _ IH Hy]; intros Hx; cbn.
  - repeat constructor.
  - apply Forall_cons in Hx as [Hyx Hx]. constructor; [by apply IH |].
    apply Forall_app. split; [done | by constructor].
Qed.

Lemma StronglySorted_rev {A : Type} (R R' : A → A → Prop) (l : list A) :
  (∀ a b, R a b → R' b a) → StronglySorted R l → StronglySorted R' (rev l).
Proof.
  intros Hflip. induction 1 as [| x l _ IH Hx]; cbn; [constructor |].
  apply StronglySorted_snoc; [done |].
  apply Forall_rev. eapply Forall_impl; [exact Hx |]. intros y. apply Hflip.
Qed.

Lemma ties_at_most_one (k : keyof_Problem) (d : Dir) (a : Problem) (l : list Problem) :
  NoDup (sort_key k <$> l) →
  (length (List.filter (λ x, ordinal_comparator k d a x =? 0)%Z l) ≤ 1)%nat.
Proof.
  induction l as [| x l IH]; cbn [fmap list_fmap List.filter]; [cbn; lia |].
  intros [Hx Hl]%NoDup_cons.
  destruct (Z.eqb_spec (ordinal_comparator k d a x) 0) as [Hax | _]; [| by apply IH].
  assert (Hnone : List.filter (λ y, ordinal_comparator k d a y =? 0)%Z l = []).
  { destruct (List.filter _ l) as [| y ys] eqn:Hf; [done |]. exfalso.
    assert (Hy : In y (List.filter (λ y, ordinal_comparator k d a y =? 0)%Z l))
      by (rewrite Hf; by left).
    apply filter_In in Hy as [Hy Hay]. apply Z.eqb_eq in Hay.
    apply Hx. apply ordinal_zero in Hax, Hay. rewrite <- Hax, Hay.
    apply list_elem_of_fmap_2. by apply list_elem_of_In. }
  rewrite Hnone. cbn. lia.
Qed.

(** X15.  When the records of the list are plain for the sort key and no two
    of them have the same sort key (as with the identifier of a list without
    repeated identifier), the descending order is the ascending order
    reversed.  With ties it is not: tied records keep their order in both
    directions. *)
Theorem descending_reverses (k : keyof_Problem) (l : list Problem) :
  Forall (plain k) l →
  NoDup (sort_key k <$> l) →
  sortStage {| key := Some k; dir := desc |} l =
  rev (sortStage {| key := Some k; dir := asc |} l).
Proof.
  intros Hplain Hnd. symmetry. apply sortStage_unique.
  - done.
  - rewrite <- Permutation_rev. cbn [sortStage key dir]. apply Array_sort_perm.
  - apply (StronglySorted_rev (λ a b, (comparator k asc a b ≤ 0)%Z)).
    + intros a b. by rewrite comparator_swap.
    + by apply sortStage_sorted.
  - intros a Ha. rewrite filter_rev.
    assert (Hplain_a : plain k a).
    { rewrite Forall_forall in Hplain. by apply Hplain. }
    assert (Hsame : ∀ xs, List.filter (λ x, comparator k desc a x =? 0)%Z xs =
                          List.filter (λ x, comparator k asc a x =? 0)%Z xs).
    { intros xs. apply filter_ext. intros x. rewrite comparator_desc.
      by destruct (comparator k asc a x). }
    rewrite !Hsame, sortStage_stable by done.
    assert (Hlen : (length (List.filter (λ x, comparator k asc a x =? 0)%Z l) ≤ 1)%nat).
    { rewrite (filter_ext_in (λ x, comparator k asc a x =? 0)%Z
                 (λ x, ordinal_comparator k asc a x =? 0)%Z l).
      - by apply ties_at_most_one.
      - intros x Hx. rewrite comparator_plain; [done | done |].
        rewrite Forall_forall in Hplain. by apply Hplain, list_elem_of_In. }
    destruct (List.filter _ l) as [| x [| y ys]]; [done | done | cbn in Hlen; lia].
Qed.

Lemma descending_reverses_witness :
  Forall (plain Kdifficulty)
    [labelled "10" "Hard"; labelled "9" "Easy"; labelled "7" "Medium"] ∧
  NoDup (sort_key Kdifficulty <$>
           [labelled "10" "Hard"; labelled "9" "Easy"; labelled "7" "Medium"]) ∧
  id <$> sortStage {| key := Some Kdifficulty; dir := desc |}
           [labelled "10" "Hard"; labelled "9" "Easy"; labelled "7" "Medium"] =
  ["10"; "7"; "9"] ∧
  sortStage {| key := Some Kdifficulty; dir := desc |}
    [labelled "10" "Hard"; labelled "9" "Easy"; labelled "7" "Medium"] =
  rev (sortStage {| key := Some Kdifficulty; dir := asc |}
         [labelled "10" "Hard"; labelled "9" "Easy"; labelled "7" "Medium"]).
Proof.
  assert (Hplain : Forall (plain Kdifficulty)
                     [labelled "10" "Hard"; labelled "9" "Easy"; labelled "7" "Medium"]).
  { repeat constructor; intros _; reflexivity. }
  assert (Hnd : NoDup (sort_key Kdifficulty <$>
                  [labelled "10" "Hard"; labelled "9" "Easy"; labelled "7" "Medium"])).
  { cbn. repeat (apply NoDup_cons; split; [rewrite ?elem_of_cons, ?elem_of_nil;
      intros H; repeat destruct H as [H | H]; try discriminate; done |]).
    apply NoDup_nil. done. }
  split; [exact Hplain |]. split; [exact Hnd |]. split; [reflexivity |].
  exact (descending_reverses Kdifficulty _ Hplain Hnd).
Defined.

(** ** Edits *)

Lemma spread_id (x : Problem) (patch : Patch.t) :
  Patch.id patch = None → id (spread x patch) = id x.
Proof. intros H. cbn. by rewrite H. Qed.

Lemma update_list_comm (all : list Problem) (i j : string) (p q : Patch.t) :
  i ≠ j → Patch.id p = None → Patch.id q = None →
  update_list (update_list all i p) j q = update_list (update_list all j q) i p.
Proof.
  intros Hij Hp Hq. unfold update_list. rewrite !map_map. apply map_ext.
  intros x. destruct (decide (id x = i)), (decide (id x = j));
    repeat case_decide; rewrite ?spread_id in * by done; congruence.
Qed.

(** X16.  Edits of two different problems commute: with patches that do not
    name the identifier, [update] of one and then of the other leaves the
    same world (list, derived view, storage) as the two in the other
    order. *)
Theorem updates_commute (w : World) (i j : string) (p q : Patch.t) :
  i ≠ j → Patch.id p = None → Patch.id q = None →
  (update i p;; update j q) w = (update j q;; update i p) w.
Proof.
  intros Hij Hp Hq. unfold mbind, M_bind. rewrite !update_run.
  cbn [ui localStorage network setAllProblems viewEffect allProblems visible
       loading filters sort page pageSize].
  rewrite !insert_insert_eq. by rewrite (update_list_comm _ i j p q).
Qed.

Lemma updates_commute_witness :
  "1" ≠ "2" ∧ Patch.id (solved_patch false) = None ∧ Patch.id (solved_patch true) = None ∧
  (update "1" (solved_patch false);; update "2" (solved_patch true)) ready_world =
  (update "2" (solved_patch true);; update "1" (solved_patch false)) ready_world.
Proof.
  split; [discriminate |]. split; [reflexivity |]. split; [reflexivity |].
  apply (updates_commute ready_world "1" "2"); [discriminate | reflexivity | reflexivity].
Defined.

(** ** Header statistics *)

Lemma Array_slice_elem_of {A : Type} (xs : list A) (s e : Z) (x : A) :
  x ∈ Array_slice xs s e → x ∈ xs.
Proof.
  unfold Array_slice. intros Hx.
  apply elem_of_take in Hx as (i & Hx & _).
  rewrite lookup_drop in Hx. by eapply list_elem_of_lookup_2.
Qed.

Lemma slice_elem_of_allProblems (s : State) (p : Problem) :
  view_consistent s → p ∈ slice s → p ∈ allProblems s.
Proof.
  intros Hview Hp. apply Array_slice_elem_of in Hp. rewrite Hview in Hp.
  assert (Hin : p ∈ filterStage (filters s) (allProblems s)).
  { destruct (sort s) as [[k |] d]; [| done]. cbn [sortStage key dir] in Hp.
    by rewrite Array_sort_perm in Hp. }
  rewrite filterStage_passes in Hin. apply list_elem_of_In in Hin.
  apply filter_In in Hin as [Hin _]. by apply list_elem_of_In.
Qed.

Lemma allProblems_setAllProblems (l : list Problem) (s : State) :
  allProblems (setAllProblems l s) = l.
Proof. reflexivity. Qed.

Lemma update_list_unique (l1 l2 : list Problem) (p : Problem) (patch : Patch.t) :
  NoDup (id <$> (l1 ++ p :: l2)) →
  update_list (l1 ++ p :: l2) (id p) patch = l1 ++ spread p patch :: l2.
Proof.
  rewrite fmap_app, fmap_cons. intros (_ & Hl1 & (Hl2 & _)%NoDup_cons)%NoDup_app.
  assert (Hkeep : ∀ l : list Problem, id p ∉ id <$> l → update_list l (id p) patch = l).
  { intros l Hl. unfold update_list. rewrite <- (map_id l) at 2. apply map_ext_in.
    intros x Hx. destruct (decide (id x = id p)) as [Heq | _]; [| done].
    exfalso. apply Hl. rewrite <- Heq. apply list_elem_of_fmap_2. by apply list_elem_of_In. }
  unfold update_list in *. rewrite map_app. cbn [map].
  rewrite (decide_True (P := id p = id p)) by done.
  rewrite (Hkeep l2) by done. f_equal. apply Hkeep.
  intros Hin. apply (Hl1 _ Hin). apply list_elem_of_here.
Qed.

(** X17.  In a reachable world whose full list has no repeated identifier,
    ticking the solved box of a row on display changes the solved count of
    the header by exactly one, up when the row was not solved and down when
    it was, and leaves the total and the starred count as they were. *)
Theorem toggle_solved_counts (w w' : World) (row : nat) (p : Problem) :
  reachable w → NoDup (id <$> allProblems (ui w)) →
  slice (ui w) !! row = Some p →
  settle (handle (ToggleSolved row) w) = Some w' →
  stats_total (ui w') = stats_total (ui w) ∧
  stats_starred (ui w') = stats_starred (ui w) ∧
  (solved p = false → stats_solved (ui w') = S (stats_solved (ui w))) ∧
  (solved p = true → S (stats_solved (ui w')) = stats_solved (ui w)).
Proof.
  intros Hreach Hnd Hrow Hstep.
  pose proof (reachable_view_consistent w Hreach) as Hview.
  assert (Hin : p ∈ allProblems (ui w)).
  { eapply slice_elem_of_allProblems; [done |]. by eapply list_elem_of_lookup_2. }
  apply list_elem_of_split in Hin as (l1 & l2 & Hall).
  cbn [handle] in Hstep. unfold edit_row, mbind at 1, M_bind, get_state in Hstep.
  cbn [row_of mbind option_bind] in Hstep. rewrite Hrow in Hstep.
  cbn [row_patch] in Hstep. rewrite update_run in Hstep. cbn in Hstep.
  injection Hstep as <-. unfold stats_total, stats_starred, stats_solved.
  cbn [ui]. rewrite !allProblems_setAllProblems. rewrite Hall in Hnd |- *.
  rewrite update_list_unique by done.
  rewrite !List.filter_app, !length_app. cbn [List.filter length spread solved starred default
    Patch.solved Patch.starred].
  destruct (solved p), (starred p); cbn [negb length];
    (split; [done |]); (split; [done |]); split; intros; (done || lia).
Qed.

Lemma toggle_solved_counts_witness :
  reachable fresh_world ∧ NoDup (id <$> allProblems (ui fresh_world)) ∧
  slice (ui fresh_world) !! 0%nat = Some (merge_record (savedMap []) two_sum) ∧
  ∃ w', settle (handle (ToggleSolved 0) fresh_world) = Some w' ∧
        stats_total (ui w') = stats_total (ui fresh_world) ∧
        stats_solved (ui w') = S (stats_solved (ui fresh_world)).
Proof.
  assert (Hnd : NoDup (id <$> allProblems (ui fresh_world))).
  { apply (bool_decide_unpack _). vm_compute. reflexivity. }
  split; [apply fresh_world_reachable |]. split; [exact Hnd |].
  split; [reflexivity |]. eexists. split; [reflexivity |].
  destruct (toggle_solved_counts fresh_world _ 0 (merge_record (savedMap []) two_sum)
              (fresh_world_reachable _) Hnd eq_refl eq_refl) as (Ht & _ & Hup & _).
  split; [exact Ht | by apply Hup].
Defined.

(** ** The sort specification *)




(** ** The view after the first load *)

Lemma Qle_bool_inject_Z (a b : Z) : Qle_bool (inject_Z a) (inject_Z b) = (a <=? b)%Z.
Proof.
  destruct (Z.leb_spec a b) as [Hle | Hgt].
  - apply Qle_bool_iff. by rewrite <- Zle_Qle.
  - destruct (Qle_bool (inject_Z a) (inject_Z b)) eqn:Hq; [| done].
    apply Qle_bool_iff in Hq. rewrite <- Zle_Qle in Hq. lia.
Qed.

(** X19.  After a first load that publishes a list, the table shows, in the
    order of the list, exactly the records whose rating lies between 0 and
    3500, the bounds of the initial filters: a record rated outside is in the
    full list and in the header total and is not shown. *)
Theorem first_view_hides_out_of_range (ls : gmap string item)
    (net : list (option (list RawItem))) (w : World) :
  mount ls net = Some w → loading (ui w) = false →
  visible (ui w) =
  List.filter (λ p, (0 <=? rating p)%Z && (rating p <=? 3500)%Z) (allProblems (ui w)) ∧
  stats_total (ui w) = length (allProblems (ui w)).
Proof.
  intros Hmount Hready. split; [| done].
  apply loadData_ui in Hmount as [Hui | [l Hui]]; rewrite Hui in Hready |- *; [done |].
  cbn [visible setLoading setAllProblems viewEffect allProblems sort filters
       initial_state sortStage key].
  rewrite filterStage_passes. apply filter_ext. intros p.
  unfold passes, in_range. cbn.
  change 0%Q with (inject_Z 0). change (3500 # 1)%Q with (inject_Z 3500).
  rewrite !Qle_bool_inject_Z. by rewrite !andb_true_r.
Qed.

Lemma first_view_hides_out_of_range_witness :
  ∃ w, mount ∅ [Some [two_sum; below_zero]] = Some w ∧ loading (ui w) = false ∧
       length (allProblems (ui w)) = 2%nat ∧
       visible (ui w) =
       List.filter (λ p, (0 <=? rating p)%Z && (rating p <=? 3500)%Z)
         (allProblems (ui w)) ∧
       length (visible (ui w)) = 1%nat.
Proof.
  eexists. split; [reflexivity |]. split; [reflexivity |]. split; [reflexivity |].
  split; [| reflexivity].
  apply (first_view_hides_out_of_range ∅ [Some [two_sum; below_zero]]); reflexivity.
Defined.
